(** * Timeline composition engine of the video editor

    Shallow embedding of [src/components/react-video-editor.tsx]
    (component [ReactVideoEditor]) and of the [Player] call of
    [src/components/video-preview.tsx].

    Frame numbers are JavaScript numbers holding integers; they are modelled
    as [Z].  React state ([useState]) is modelled as a record that every
    handler takes and returns; a handler sees the values of the render in
    which it was created, and React re-renders between two discrete events,
    so handlers are composed sequentially. *)

From stdpp Require Import base list strings pretty sorting.
From Stdlib Require Import ZArith Lia QArith Qcanon Qround.

Open Scope Z_scope.

(** ** Data model ([@/types/types], as used by the component) *)

Module Clip.
Record t : Type := mk
  { id : string; start : Z; duration : Z; src : string; row : Z }.
End Clip.

Module TextOverlay.
Record t : Type := mk
  { id : string; start : Z; duration : Z; text : string; row : Z }.
End TextOverlay.

(** An element of the merged array [[...clips, ...textOverlays]]. *)
Inductive Item : Type :=
| ClipItem (c : Clip.t)
| TextItem (o : TextOverlay.t).

Definition id (i : Item) : string :=
  match i with ClipItem c => Clip.id c | TextItem o => TextOverlay.id o end.
Definition start (i : Item) : Z :=
  match i with ClipItem c => Clip.start c | TextItem o => TextOverlay.start o end.
Definition duration (i : Item) : Z :=
  match i with ClipItem c => Clip.duration c | TextItem o => TextOverlay.duration o end.
Definition row (i : Item) : Z :=
  match i with ClipItem c => Clip.row c | TextItem o => TextOverlay.row o end.

(** Exclusive end frame [start + duration]. *)
Definition itemEnd (i : Item) : Z := start i + duration i.

(** The accumulator of the [reduce] in [addClip] and [addTextOverlay]: the
    literal [{ start: 0, duration: 0 }] or one of the items of the array. *)
Inductive Latest : Type :=
| Origin
| Picked (i : Item).

Definition latestStart (l : Latest) : Z :=
  match l with Origin => 0 | Picked i => start i end.
Definition latestDuration (l : Latest) : Z :=
  match l with Origin => 0 | Picked i => duration i end.
Definition latestEnd (l : Latest) : Z := latestStart l + latestDuration l.

(** ** Component state: the [useState] cells of [ReactVideoEditor] *)

Record EditorState : Type := mkState
  { clips : list Clip.t;
    textOverlays : list TextOverlay.t;
    totalDuration : Z;
    currentFrame : Z;
    isMobile : bool;
    activeTab : string;
    isPlaying : bool }.

Definition setClips (v : list Clip.t) (s : EditorState) : EditorState :=
  mkState v (textOverlays s) (totalDuration s) (currentFrame s)
          (isMobile s) (activeTab s) (isPlaying s).
Definition setTextOverlays (v : list TextOverlay.t) (s : EditorState) : EditorState :=
  mkState (clips s) v (totalDuration s) (currentFrame s)
          (isMobile s) (activeTab s) (isPlaying s).
Definition setTotalDuration (v : Z) (s : EditorState) : EditorState :=
  mkState (clips s) (textOverlays s) v (currentFrame s)
          (isMobile s) (activeTab s) (isPlaying s).
Definition setCurrentFrame (v : Z) (s : EditorState) : EditorState :=
  mkState (clips s) (textOverlays s) (totalDuration s) v
          (isMobile s) (activeTab s) (isPlaying s).
Definition setIsMobile (v : bool) (s : EditorState) : EditorState :=
  mkState (clips s) (textOverlays s) (totalDuration s) (currentFrame s)
          v (activeTab s) (isPlaying s).
Definition setActiveTab (v : string) (s : EditorState) : EditorState :=
  mkState (clips s) (textOverlays s) (totalDuration s) (currentFrame s)
          (isMobile s) v (isPlaying s).
Definition setIsPlaying (v : bool) (s : EditorState) : EditorState :=
  mkState (clips s) (textOverlays s) (totalDuration s) (currentFrame s)
          (isMobile s) (activeTab s) v.

(** The initial values passed to [useState]. *)
Definition initialState : EditorState :=
  mkState [] [] 1 0 false "video" false.

(** ** Placement: [addClip], [addTextOverlay] *)

(** [[...clips, ...textOverlays]] *)
Definition merged (cs : list Clip.t) (os : list TextOverlay.t) : list Item :=
  (ClipItem <$> cs) ++ (TextItem <$> os).

Definition allItems (s : EditorState) : list Item :=
  merged (clips s) (textOverlays s).

(** The reducer
    [(latest, item) => item.start + item.duration > latest.start + latest.duration ? item : latest]. *)
Definition pickLatestEnd (latest : Latest) (item : Item) : Latest :=
  if latestEnd latest <? itemEnd item then Picked item else latest.

(** [const lastItem = [...clips, ...textOverlays].reduce(..., { start: 0, duration: 0 })] *)
Definition lastItem (s : EditorState) : Latest :=
  foldl pickLatestEnd Origin (allItems s).

Definition videoSrc : string :=
  "https://rwxrdxvxndclnqvznxfj.supabase.co/storage/v1/object/public/react-video-editor/open-source-video.mp4?t=2024-12-04T03%3A16%3A12.359Z".

(** [updateTotalDuration]: two reductions with [Math.max] from 0, then
    [setTotalDuration]. *)
Definition lastClipEnd (updatedClips : list Clip.t) : Z :=
  foldl (fun max clip => Z.max max (Clip.start clip + Clip.duration clip)) 0 updatedClips.

Definition lastTextOverlayEnd (updatedTextOverlays : list TextOverlay.t) : Z :=
  foldl (fun max overlay =>
           Z.max max (TextOverlay.start overlay + TextOverlay.duration overlay))
        0 updatedTextOverlays.

Definition newTotalDuration (updatedClips : list Clip.t)
    (updatedTextOverlays : list TextOverlay.t) : Z :=
  Z.max (lastClipEnd updatedClips) (lastTextOverlayEnd updatedTextOverlays).

Definition updateTotalDuration (updatedClips : list Clip.t)
    (updatedTextOverlays : list TextOverlay.t) (s : EditorState) : EditorState :=
  setTotalDuration (newTotalDuration updatedClips updatedTextOverlays) s.

Definition newClip (s : EditorState) : Clip.t :=
  let lastItem := lastItem s in
  Clip.mk ("clip-" +:+ pretty (length (clips s) + 1)%nat)
          (latestStart lastItem + latestDuration lastItem)
          200 videoSrc 0.

Definition addClip (s : EditorState) : EditorState :=
  let newClip := newClip s in
  updateTotalDuration (clips s ++ [newClip]) (textOverlays s)
    (setClips (clips s ++ [newClip]) s).

Definition newOverlay (s : EditorState) : TextOverlay.t :=
  let lastItem := lastItem s in
  TextOverlay.mk ("text-" +:+ pretty (length (textOverlays s) + 1)%nat)
                 (latestStart lastItem + latestDuration lastItem)
                 100 "BUILD." 0.

Definition addTextOverlay (s : EditorState) : EditorState :=
  let newOverlay := newOverlay s in
  updateTotalDuration (clips s) (textOverlays s ++ [newOverlay])
    (setTextOverlays (textOverlays s ++ [newOverlay]) s).

(** ** The effect that seeds the timeline on mount *)

Definition initialClip : Clip.t := Clip.mk "clip-1" 0 200 videoSrc 0.
Definition initialTextOverlay : TextOverlay.t :=
  TextOverlay.mk "text-1" 50 100 "BUILD." 0.

Definition seedEffect (s : EditorState) : EditorState :=
  if bool_decide (length (clips s) = 0%nat ∧ length (textOverlays s) = 0%nat) then
    updateTotalDuration [initialClip] [initialTextOverlay]
      (setTextOverlays [initialTextOverlay] (setClips [initialClip] s))
  else s.

(** ** Playback control and frame sampling *)

(** [handlePlayPause]; [player] tells whether [playerRef.current] is set. *)
Definition handlePlayPause (player : bool) (s : EditorState) : EditorState :=
  if player then setIsPlaying (negb (isPlaying s)) s else s.

(** One tick of the [setInterval] callback.  [player] is [None] when
    [playerRef.current] is not set, otherwise the value returned by
    [getCurrentFrame()], [None] standing for [null]. *)
Definition sampleFrame (player : option (option Z)) (s : EditorState) : EditorState :=
  match player with
  | Some (Some frame) => setCurrentFrame frame s
  | _ => s
  end.

(** [checkMobile] at a given [window.innerWidth]. *)
Definition checkMobile (innerWidth : Z) (s : EditorState) : EditorState :=
  setIsMobile (innerWidth <=? 768) s.

(** [handleRenderVideo] only raises an alert. *)
Definition handleRenderVideo (s : EditorState) : EditorState := s.

(** ** Composition: the ordered render sequence *)

Section ArraySort.
Context {A : Type}.
Variable comparefn : A → A → Z.

(** [Array.prototype.sort(comparefn)] is specified (ECMAScript 2019 and
    later) as a stable sort: [x] stays before [y] unless
    [comparefn(x, y) > 0].  It is modelled by a stable insertion sort. *)
Fixpoint sortInsert (x : A) (l : list A) : list A :=
  match l with
  | [] => [x]
  | y :: l' =>
      if comparefn x y <=? 0 then x :: y :: l' else y :: sortInsert x l'
  end.

Definition sort (l : list A) : list A := foldr sortInsert [] l.
End ArraySort.

(** [x] may stay before [y] under [comparefn]. *)
Definition notAfter {A : Type} (comparefn : A → A → Z) (x y : A) : Prop :=
  comparefn x y ≤ 0.

Inductive Element : Type :=
| Video (src : string)
| TextOverlayComponent (text : string).

Record Sequence : Type := mkSequence
  { key : string; from : Z; durationInFrames : Z; children : Element }.

(** ["src" in item ? <Video src=... /> : <TextOverlayComponent text=... />] *)
Definition renderItem (item : Item) : Sequence :=
  mkSequence (id item) (start item) (duration item)
    match item with
    | ClipItem c => Video (Clip.src c)
    | TextItem o => TextOverlayComponent (TextOverlay.text o)
    end.

Definition byStart (a b : Item) : Z := start a - start b.

Definition sortedItems (cs : list Clip.t) (os : list TextOverlay.t) : list Item :=
  sort byStart (merged cs os).

Definition Composition (s : EditorState) : list Sequence :=
  renderItem <$> sortedItems (clips s) (textOverlays s).

(** [durationInFrames={Math.max(1, totalDuration)}] of the [Player]. *)
Definition playerDurationInFrames (totalDuration : Z) : Z := Z.max 1 totalDuration.

(** ** Sessions *)

Inductive Append : Type := AppendMediaClip | AppendTextOverlay.

Definition append (s : EditorState) (a : Append) : EditorState :=
  match a with
  | AppendMediaClip => addClip s
  | AppendTextOverlay => addTextOverlay s
  end.

Definition appendAll (s : EditorState) (l : list Append) : EditorState :=
  foldl append s l.

(** The item that an append creates in state [s]. *)
Definition created (s : EditorState) (a : Append) : Item :=
  match a with
  | AppendMediaClip => ClipItem (newClip s)
  | AppendTextOverlay => TextItem (newOverlay s)
  end.

(** The items created by a run of appends, in the order of their creation. *)
Fixpoint journal (s : EditorState) (l : list Append) : list Item :=
  match l with
  | [] => []
  | a :: l' => created s a :: journal (append s a) l'
  end.

(** Everything that can happen to the mounted component. *)
Inductive Event : Type :=
| OnAddClip
| OnAddText
| OnPlayPause (player : bool)
| OnInterval (player : option (option Z))
| OnResize (innerWidth : Z)
| OnTabChange (tab : string)
| OnRenderVideo.

Definition handle (s : EditorState) (e : Event) : EditorState :=
  match e with
  | OnAddClip => addClip s
  | OnAddText => addTextOverlay s
  | OnPlayPause player => handlePlayPause player s
  | OnInterval player => sampleFrame player s
  | OnResize innerWidth => checkMobile innerWidth s
  | OnTabChange tab => setActiveTab tab s
  | OnRenderVideo => handleRenderVideo s
  end.

(** The effects with an empty dependency list run once, after the first
    render, in the order of their declaration: the interval is installed,
    [checkMobile] runs, the timeline is seeded. *)
Definition mount (innerWidth : Z) (s : EditorState) : EditorState :=
  seedEffect (checkMobile innerWidth s).

Inductive mounted : EditorState → Prop :=
| mounted_first innerWidth : mounted (mount innerWidth initialState)
| mounted_event s e : mounted s → mounted (handle s e).

(** The states the component is ever rendered with. *)
Definition reachable (s : EditorState) : Prop :=
  s = initialState ∨ mounted s.

Definition sameItems (s1 s2 : EditorState) : Prop :=
  clips s1 = clips s2 ∧ textOverlays s1 = textOverlays s2.

(** ** Properties named by the specification *)

(** Frame [f] lies in the half-open interval [[start, start + duration)]. *)
Definition covers (i : Item) (f : Z) : Prop := start i ≤ f ∧ f < itemEnd i.

Definition overlap (a b : Item) : Prop := ∃ f, covers a f ∧ covers b f.

(** [a] ends no later than [b] starts. *)
Definition precedes (a b : Item) : Prop := itemEnd a ≤ start b.

(** No two items, at different positions, overlap. *)
Definition NoOverlap (l : list Item) : Prop :=
  ∀ i j a b, i ≠ j → l !! i = Some a → l !! j = Some b → ¬ overlap a b.

(** [m] is the largest [start + duration] among [l]. *)
Definition IsMaxEnd (l : list Item) (m : Z) : Prop :=
  (∀ i, i ∈ l → itemEnd i ≤ m) ∧ (∃ i, i ∈ l ∧ itemEnd i = m).

(** Duration consistency as the specification words it:
    [max(start + duration)] over all items, or 1 if there is none. *)
Definition DurationConsistent (s : EditorState) : Prop :=
  match allItems s with
  | [] => totalDuration s = 1
  | _ :: _ => IsMaxEnd (allItems s) (totalDuration s)
  end.

(** [m] is [max(0, max over l of start + duration)]. *)
Definition IsLastEnd (l : list Item) (m : Z) : Prop :=
  0 ≤ m ∧ (∀ i, i ∈ l → itemEnd i ≤ m) ∧ (m = 0 ∨ ∃ i, i ∈ l ∧ itemEnd i = m).

(** Validity of an item as the data model of the specification wants it. *)
Definition wellFormed (i : Item) : Prop := 0 ≤ start i ∧ 0 < duration i.

(** The running maximum of the end frames, from [m]. *)
Definition maxEndFrom (m : Z) (l : list Item) : Z :=
  foldl (fun m i => Z.max m (itemEnd i)) m l.

(** The frame at which the next item is placed. *)
Definition frontier (s : EditorState) : Z := latestEnd (lastItem s).

Definition isClip (i : Item) : Prop :=
  match i with ClipItem _ => True | TextItem _ => False end.

Definition isText (i : Item) : Prop :=
  match i with ClipItem _ => False | TextItem _ => True end.

#[global] Instance isClip_dec i : Decision (isClip i).
Proof. destruct i; simpl; apply _. Defined.

#[global] Instance isText_dec i : Decision (isText i).
Proof. destruct i; simpl; apply _. Defined.

(** ** Sessions of the mounted component *)

(** The two items the seeding effect installs, as they stand in
    [[...clips, ...textOverlays]]. *)
Definition seedItems : list Item :=
  [ClipItem initialClip; TextItem initialTextOverlay].

(** The handlers run for a sequence of events, one render after the other. *)
Definition run (s : EditorState) (evs : list Event) : EditorState :=
  foldl handle s evs.

Definition asAppend (e : Event) : option Append :=
  match e with
  | OnAddClip => Some AppendMediaClip
  | OnAddText => Some AppendTextOverlay
  | _ => None
  end.

(** The [duration] literal of [newClip] and of [newOverlay]. *)
Definition defaultDuration (a : Append) : Z :=
  match a with AppendMediaClip => 200 | AppendTextOverlay => 100 end.

(** Frames added by the appends among [evs]. *)
Definition appendedFrames (evs : list Event) : Z :=
  foldr Z.add 0 (defaultDuration <$> omap asAppend evs).

(** Whether the play button was effective an odd number of times. *)
Definition toggled (evs : list Event) : bool :=
  foldr xorb false
    ((fun e => match e with OnPlayPause true => true | _ => false end) <$> evs).

(** The last frame a tick of the interval read from the player, if any. *)
Definition lastSample (evs : list Event) : option Z :=
  foldl (fun acc e =>
           match e with OnInterval (Some (Some frame)) => Some frame | _ => acc end)
        None evs.

(** The last width a resize reported, if any. *)
Definition lastWidth (evs : list Event) : option Z :=
  foldl (fun acc e => match e with OnResize w => Some w | _ => acc end) None evs.

(** The last tab the sidebar selected, if any. *)
Definition lastTab (evs : list Event) : option string :=
  foldl (fun acc e => match e with OnTabChange t => Some t | _ => acc end) None evs.

(** ** The single-file version of the editor

    [ReactVideoEditor] as the file that keeps the whole editor in one
    component writes it.  Its reducers, [updateTotalDuration] and
    [Composition] are the same code as above; the state has no tab and no
    playing flag, the text of a new overlay differs and the seeded overlay
    starts at frame 200. *)

Module SingleFile.
Record EditorState : Type := mkState
  { clips : list Clip.t;
    textOverlays : list TextOverlay.t;
    totalDuration : Z;
    currentFrame : Z;
    isMobile : bool }.

Definition setClips (v : list Clip.t) (s : EditorState) : EditorState :=
  mkState v (textOverlays s) (totalDuration s) (currentFrame s) (isMobile s).
Definition setTextOverlays (v : list TextOverlay.t) (s : EditorState) : EditorState :=
  mkState (clips s) v (totalDuration s) (currentFrame s) (isMobile s).
Definition setTotalDuration (v : Z) (s : EditorState) : EditorState :=
  mkState (clips s) (textOverlays s) v (currentFrame s) (isMobile s).
Definition setCurrentFrame (v : Z) (s : EditorState) : EditorState :=
  mkState (clips s) (textOverlays s) (totalDuration s) v (isMobile s).
Definition setIsMobile (v : bool) (s : EditorState) : EditorState :=
  mkState (clips s) (textOverlays s) (totalDuration s) (currentFrame s) v.

Definition initialState : EditorState := mkState [] [] 1 0 false.

Definition allItems (s : EditorState) : list Item :=
  merged (clips s) (textOverlays s).

Definition lastItem (s : EditorState) : Latest :=
  foldl pickLatestEnd Origin (allItems s).

Definition updateTotalDuration (updatedClips : list Clip.t)
    (updatedTextOverlays : list TextOverlay.t) (s : EditorState) : EditorState :=
  setTotalDuration (newTotalDuration updatedClips updatedTextOverlays) s.

Definition newClip (s : EditorState) : Clip.t :=
  let lastItem := lastItem s in
  Clip.mk ("clip-" +:+ pretty (length (clips s) + 1)%nat)
          (latestStart lastItem + latestDuration lastItem)
          200 videoSrc 0.

Definition addClip (s : EditorState) : EditorState :=
  let newClip := newClip s in
  updateTotalDuration (clips s ++ [newClip]) (textOverlays s)
    (setClips (clips s ++ [newClip]) s).

Definition newOverlay (s : EditorState) : TextOverlay.t :=
  let lastItem := lastItem s in
  TextOverlay.mk ("text-" +:+ pretty (length (textOverlays s) + 1)%nat)
                 (latestStart lastItem + latestDuration lastItem)
                 100 "Welcome to React Video Editor" 0.

Definition addTextOverlay (s : EditorState) : EditorState :=
  let newOverlay := newOverlay s in
  updateTotalDuration (clips s) (textOverlays s ++ [newOverlay])
    (setTextOverlays (textOverlays s ++ [newOverlay]) s).

Definition initialClip : Clip.t := Clip.mk "clip-1" 0 200 videoSrc 0.
Definition initialTextOverlay : TextOverlay.t :=
  TextOverlay.mk "text-1" 200 100 "Welcome to React Video Editor" 0.

Definition seedEffect (s : EditorState) : EditorState :=
  if bool_decide (length (clips s) = 0%nat ∧ length (textOverlays s) = 0%nat) then
    updateTotalDuration [initialClip] [initialTextOverlay]
      (setTextOverlays [initialTextOverlay] (setClips [initialClip] s))
  else s.

Definition sampleFrame (player : option (option Z)) (s : EditorState) : EditorState :=
  match player with
  | Some (Some frame) => setCurrentFrame frame s
  | _ => s
  end.

Definition checkMobile (innerWidth : Z) (s : EditorState) : EditorState :=
  setIsMobile (innerWidth <=? 768) s.

Definition Composition (s : EditorState) : list Sequence :=
  renderItem <$> sortedItems (clips s) (textOverlays s).

Inductive Event : Type :=
| OnAddClip
| OnAddText
| OnInterval (player : option (option Z))
| OnResize (innerWidth : Z).

Definition handle (s : EditorState) (e : Event) : EditorState :=
  match e with
  | OnAddClip => addClip s
  | OnAddText => addTextOverlay s
  | OnInterval player => sampleFrame player s
  | OnResize innerWidth => checkMobile innerWidth s
  end.

Definition mount (innerWidth : Z) (s : EditorState) : EditorState :=
  seedEffect (checkMobile innerWidth s).

Inductive mounted : EditorState → Prop :=
| mounted_first innerWidth : mounted (mount innerWidth initialState)
| mounted_event s e : mounted s → mounted (handle s e).

Definition reachable (s : EditorState) : Prop :=
  s = initialState ∨ mounted s.
End SingleFile.

(** ** The zoom buttons of the timeline

    [zoom] holds 1 at first and moves by 0.25 between 0.5 and 3.  These
    numbers and every sum or difference the handlers form of them are
    multiples of 0.25 below 4, which doubles hold exactly; they are modelled
    as rationals. *)

Definition mathMax (a b : Qc) : Qc := if decide (a ≤ b)%Qc then b else a.
Definition mathMin (a b : Qc) : Qc := if decide (a ≤ b)%Qc then a else b.

(** [useState(1)] *)
Definition initialZoom : Qc := Q2Qc 1.

(** [setZoom(Math.max(0.5, zoom - 0.25))] *)
Definition zoomOut (zoom : Qc) : Qc :=
  mathMax (Q2Qc (1 # 2)) (zoom - Q2Qc (1 # 4))%Qc.

(** [setZoom(Math.min(3, zoom + 0.25))] *)
Definition zoomIn (zoom : Qc) : Qc :=
  mathMin (Q2Qc 3) (zoom + Q2Qc (1 # 4))%Qc.

(** [Math.round(zoom * 100)], [Math.round(x)] being [floor(x + 0.5)]. *)
Definition zoomPercent (zoom : Qc) : Z :=
  Qfloor (zoom * Q2Qc 100 + Q2Qc (1 # 2))%Qc.

Inductive ZoomClick : Type := ZoomOutClick | ZoomInClick.

Definition zoomStep (zoom : Qc) (c : ZoomClick) : Qc :=
  match c with ZoomOutClick => zoomOut zoom | ZoomInClick => zoomIn zoom end.

(** The zoom level that is [k] quarters. *)
Definition quarters (k : Z) : Qc := Q2Qc (inject_Z k / 4).

(** ** Running the model *)

Example chained_append_runs :
  let s2 := appendAll initialState [AppendMediaClip; AppendTextOverlay] in
  clips s2 = [Clip.mk "clip-1" 0 200 videoSrc 0]
  ∧ textOverlays s2 = [TextOverlay.mk "text-1" 200 100 "BUILD." 0]
  ∧ totalDuration s2 = 300.
Proof. vm_compute. done. Qed.

Example sort_is_stable_on_a_tie :
  key <$> Composition (setTextOverlays [TextOverlay.mk "t" 0 10 "x" 0]
                         (setClips [Clip.mk "c" 0 5 videoSrc 0] initialState))
  = ["c"; "t"].
Proof. vm_compute. done. Qed.

Example seeded_composition :
  (fun q => (key q, from q)) <$> Composition (addClip (addTextOverlay (mount 1024 initialState)))
  = [("clip-1", 0); ("text-1", 50); ("text-2", 200); ("clip-2", 300)].
Proof. vm_compute. done. Qed.

(** ** The running maximum and the anchor of the placement *)

Section RunningMaximum.
Implicit Types (l : list Item) (m : Z).

Lemma maxEndFrom_ge m l : m ≤ maxEndFrom m l.
Proof.
  revert m. induction l as [|x l IH]; intros m; simpl; [lia|].
  specialize (IH (Z.max m (itemEnd x))). lia.
Qed.

Lemma maxEndFrom_upper m l i : i ∈ l → itemEnd i ≤ maxEndFrom m l.
Proof.
  revert m. induction l as [|x l IH]; intros m Hi.
  - by apply elem_of_nil in Hi.
  - apply elem_of_cons in Hi as [->|Hi]; simpl.
    + pose proof (maxEndFrom_ge (Z.max m (itemEnd x)) l). lia.
    + by apply IH.
Qed.

Lemma maxEndFrom_attained m l :
  maxEndFrom m l = m ∨ ∃ i, i ∈ l ∧ itemEnd i = maxEndFrom m l.
Proof.
  revert m. induction l as [|x l IH]; intros m; simpl; [by left|].
  destruct (IH (Z.max m (itemEnd x))) as [Heq|(i & Hi & Heq)].
  - rewrite Heq. destruct (Z.max_spec m (itemEnd x)) as [[_ ->]|[_ ->]].
    + right. exists x. split; [left|done].
    + by left.
  - right. exists i. split; [by right|done].
Qed.

Lemma maxEndFrom_IsLastEnd l : IsLastEnd l (maxEndFrom 0 l).
Proof.
  split; [apply maxEndFrom_ge|]. split.
  - intros i. apply maxEndFrom_upper.
  - apply maxEndFrom_attained.
Qed.

Lemma IsLastEnd_unique l m1 m2 : IsLastEnd l m1 → IsLastEnd l m2 → m1 = m2.
Proof.
  intros (H01 & Hu1 & Ha1) (H02 & Hu2 & Ha2).
  destruct Ha1 as [->|(i1 & Hi1 & <-)], Ha2 as [->|(i2 & Hi2 & <-)]; try done.
  - specialize (Hu1 _ Hi2). lia.
  - specialize (Hu2 _ Hi1). lia.
  - specialize (Hu1 _ Hi2). specialize (Hu2 _ Hi1). lia.
Qed.

Lemma IsLastEnd_perm l1 l2 m : l1 ≡ₚ l2 → IsLastEnd l1 m → IsLastEnd l2 m.
Proof.
  intros Hp (H0 & Hu & Ha). split; [done|]. split.
  - intros i Hi. apply Hu. by rewrite Hp.
  - destruct Ha as [->|(i & Hi & <-)]; [by left|].
    right. exists i. by rewrite <-Hp.
Qed.

Lemma maxEndFrom_perm l1 l2 : l1 ≡ₚ l2 → maxEndFrom 0 l1 = maxEndFrom 0 l2.
Proof.
  intros Hp. apply (IsLastEnd_unique l2); [|apply maxEndFrom_IsLastEnd].
  eapply IsLastEnd_perm; [done|apply maxEndFrom_IsLastEnd].
Qed.

Lemma maxEndFrom_app m l1 l2 :
  maxEndFrom m (l1 ++ l2) = maxEndFrom (maxEndFrom m l1) l2.
Proof. apply foldl_app. Qed.

Lemma maxEndFrom_max m l : maxEndFrom m l = Z.max m (maxEndFrom 0 l) ∨ m < 0.
Proof.
  destruct (decide (m < 0)) as [|Hm]; [by right|left].
  revert m Hm. induction l as [|x l IH]; intros m Hm; simpl; [lia|].
  rewrite (IH (Z.max m (itemEnd x))) by lia.
  rewrite (IH (Z.max 0 (itemEnd x))) by lia. lia.
Qed.

Lemma maxEndFrom_snoc l x :
  maxEndFrom 0 (l ++ [x]) = Z.max (maxEndFrom 0 l) (itemEnd x).
Proof. by rewrite maxEndFrom_app. Qed.

(** The end frame of the accumulator of [pickLatestEnd] is the running
    maximum. *)
Lemma latestEnd_foldl acc l :
  latestEnd (foldl pickLatestEnd acc l) = maxEndFrom (latestEnd acc) l.
Proof.
  revert acc. induction l as [|x l IH]; intros acc; simpl; [done|].
  rewrite IH. f_equal. unfold pickLatestEnd.
  destruct (Z.ltb_spec (latestEnd acc) (itemEnd x)); simpl.
  - change (latestEnd (Picked x)) with (itemEnd x). lia.
  - lia.
Qed.

Lemma lastClipEnd_items cs : lastClipEnd cs = maxEndFrom 0 (ClipItem <$> cs).
Proof.
  unfold lastClipEnd, maxEndFrom. generalize 0.
  induction cs as [|c cs IH]; intros m; simpl; [done|]. apply IH.
Qed.

Lemma lastTextOverlayEnd_items os :
  lastTextOverlayEnd os = maxEndFrom 0 (TextItem <$> os).
Proof.
  unfold lastTextOverlayEnd, maxEndFrom. generalize 0.
  induction os as [|o os IH]; intros m; simpl; [done|]. apply IH.
Qed.

Lemma newTotalDuration_items cs os :
  newTotalDuration cs os = maxEndFrom 0 (merged cs os).
Proof.
  unfold newTotalDuration, merged.
  rewrite lastClipEnd_items, lastTextOverlayEnd_items, maxEndFrom_app.
  pose proof (maxEndFrom_ge 0 (ClipItem <$> cs)).
  destruct (maxEndFrom_max (maxEndFrom 0 (ClipItem <$> cs)) (TextItem <$> os)); lia.
Qed.
End RunningMaximum.

Lemma frontier_maxEnd s : frontier s = maxEndFrom 0 (allItems s).
Proof. unfold frontier, lastItem. by rewrite latestEnd_foldl. Qed.

Lemma frontier_nonneg s : 0 ≤ frontier s.
Proof. rewrite frontier_maxEnd. apply maxEndFrom_ge. Qed.

Lemma frontier_upper s i : i ∈ allItems s → itemEnd i ≤ frontier s.
Proof. rewrite frontier_maxEnd. apply maxEndFrom_upper. Qed.

Lemma newClip_start s : Clip.start (newClip s) = frontier s.
Proof. done. Qed.

Lemma newOverlay_start s : TextOverlay.start (newOverlay s) = frontier s.
Proof. done. Qed.

Lemma created_start s a : start (created s a) = frontier s.
Proof. by destruct a. Qed.

Lemma created_duration_pos s a : 0 < duration (created s a).
Proof. by destruct a. Qed.

Lemma allItems_append s a : allItems (append s a) ≡ₚ allItems s ++ [created s a].
Proof.
  destruct a; unfold allItems, merged; simpl.
  - rewrite fmap_app. simpl. rewrite <-!(assoc_L (++)).
    apply Permutation_app_head, Permutation_app_comm.
  - rewrite fmap_app. simpl. by rewrite (assoc_L (++)).
Qed.

Lemma frontier_append s a :
  frontier (append s a) = frontier s + duration (created s a).
Proof.
  rewrite !frontier_maxEnd, (maxEndFrom_perm _ _ (allItems_append s a)).
  rewrite maxEndFrom_snoc. unfold itemEnd. rewrite created_start.
  rewrite <-frontier_maxEnd. pose proof (created_duration_pos s a). lia.
Qed.

Lemma totalDuration_append s a : totalDuration (append s a) = frontier (append s a).
Proof.
  rewrite frontier_maxEnd. unfold allItems.
  destruct a; simpl; by rewrite newTotalDuration_items.
Qed.

(** ** Runs of appends and their journal *)

Lemma precedes_not_overlap a b : precedes a b → ¬ overlap a b ∧ ¬ overlap b a.
Proof. unfold precedes, overlap, covers. intros H. split; intros (f & ? & ?); lia. Qed.

Lemma StronglySorted_lookup_lt {A} (R : relation A) (l : list A) (i j : nat) a b :
  StronglySorted R l → (i < j)%nat → l !! i = Some a → l !! j = Some b → R a b.
Proof.
  intros Hl. revert i j. induction Hl as [|x l Hl IH Hx]; intros i j Hij Hi Hj.
  - by rewrite lookup_nil in Hi.
  - destruct j as [|j]; [lia|]. destruct i as [|i]; simpl in *.
    + injection Hi as <-. rewrite Forall_forall in Hx.
      apply Hx. by eapply list_elem_of_lookup_2.
    + apply (IH i j); [lia|done..].
Qed.

Lemma NoOverlap_sorted l : StronglySorted precedes l → NoOverlap l.
Proof.
  intros Hl i j a b Hij Hi Hj.
  destruct (decide (i < j)%nat).
  - refine (proj1 (precedes_not_overlap a b _)).
    by apply (StronglySorted_lookup_lt precedes l i j).
  - refine (proj2 (precedes_not_overlap b a _)).
    apply (StronglySorted_lookup_lt precedes l j i); [done|lia|done..].
Qed.

Lemma NoOverlap_perm l1 l2 : l1 ≡ₚ l2 → NoOverlap l1 → NoOverlap l2.
Proof.
  intros Hp Hl1 i j a b Hij Hi Hj.
  symmetry in Hp. apply Permutation_inj in Hp as (_ & f & Hf & Hlook).
  rewrite Hlook in Hi, Hj. eapply (Hl1 (f i) (f j)); [|done..].
  intros Heq. by apply Hf in Heq.
Qed.

Lemma allItems_appendAll s l : allItems (appendAll s l) ≡ₚ allItems s ++ journal s l.
Proof.
  revert s. induction l as [|a l IH]; intros s; simpl.
  - by rewrite (right_id_L [] (++)).
  - unfold appendAll in IH. rewrite IH, allItems_append.
    by rewrite <-(assoc_L (++)).
Qed.

Lemma frontier_append_le s a : frontier s ≤ frontier (append s a).
Proof. rewrite frontier_append. pose proof (created_duration_pos s a). lia. Qed.

Lemma journal_after s l :
  Forall (fun i => frontier s ≤ start i ∧ 0 < duration i) (journal s l).
Proof.
  revert s. induction l as [|a l IH]; intros s; simpl; constructor.
  - rewrite created_start. split; [lia|apply created_duration_pos].
  - eapply Forall_impl; [apply IH|]. intros i [? ?]. split; [|done].
    pose proof (frontier_append_le s a). lia.
Qed.

Lemma journal_sorted s l : StronglySorted precedes (journal s l).
Proof.
  revert s. induction l as [|a l IH]; intros s; simpl; constructor; [apply IH|].
  eapply Forall_impl; [apply journal_after|]. intros i [Hi _].
  unfold precedes, itemEnd. rewrite created_start.
  rewrite frontier_append in Hi. lia.
Qed.

Lemma journal_increasing s l :
  StronglySorted (fun a b => start a < start b) (journal s l).
Proof.
  pose proof (journal_sorted s l) as Hs. pose proof (journal_after s l) as Ha.
  induction Hs as [|x l' Hs IH Hx]; constructor.
  - apply IH. by inversion Ha.
  - inversion Ha as [|? ? [_ Hd] _]; subst.
    eapply Forall_impl; [apply Hx|]. unfold precedes, itemEnd. intros; lia.
Qed.

Lemma clips_appendAll s l :
  ClipItem <$> clips (appendAll s l)
  = (ClipItem <$> clips s) ++ filter isClip (journal s l).
Proof.
  revert s. induction l as [|a l IH]; intros s; simpl.
  - by rewrite filter_nil, (right_id_L [] (++)).
  - unfold appendAll in IH. rewrite IH. destruct a; simpl.
    + rewrite fmap_app, filter_cons_True by done. by rewrite <-(assoc_L (++)).
    + by rewrite filter_cons_False by (by intros []).
Qed.

Lemma textOverlays_appendAll s l :
  TextItem <$> textOverlays (appendAll s l)
  = (TextItem <$> textOverlays s) ++ filter isText (journal s l).
Proof.
  revert s. induction l as [|a l IH]; intros s; simpl.
  - by rewrite filter_nil, (right_id_L [] (++)).
  - unfold appendAll in IH. rewrite IH. destruct a; simpl.
    + by rewrite filter_cons_False by (by intros []).
    + rewrite fmap_app, filter_cons_True by done. by rewrite <-(assoc_L (++)).
Qed.

Lemma StronglySorted_filter {A} (R : relation A) (P : A → Prop)
    `{!∀ x, Decision (P x)} (l : list A) :
  StronglySorted R l → StronglySorted R (filter P l).
Proof.
  induction 1 as [|x l Hl IH Hx]; [constructor|].
  rewrite filter_cons. case_decide; [|done].
  constructor; [done|]. rewrite Forall_forall in Hx |- *.
  intros y Hy. apply list_elem_of_filter in Hy as [_ Hy]. by apply Hx.
Qed.

Lemma StronglySorted_fmap_inv {A B} (f : A → B) (R1 : relation A) (R2 : relation B)
    (l : list A) :
  (∀ x y, R2 (f x) (f y) → R1 x y) →
  StronglySorted R2 (f <$> l) → StronglySorted R1 l.
Proof.
  intros Hf. induction l as [|x l IH]; simpl; [constructor|].
  intros Hs. apply StronglySorted_cons in Hs as [Hx Hs]. constructor; [by apply IH|].
  rewrite Forall_fmap in Hx. eapply Forall_impl; [apply Hx|]. intros y. apply Hf.
Qed.

(** ** The sort of the composition builder *)

Section SortFacts.
Context {A : Type} (comparefn : A → A → Z).

Lemma sortInsert_perm x l : sortInsert comparefn x l ≡ₚ x :: l.
Proof.
  induction l as [|y l IH]; simpl; [done|].
  destruct (comparefn x y <=? 0); [done|].
  by rewrite IH, Permutation_swap.
Qed.

Lemma sort_perm l : sort comparefn l ≡ₚ l.
Proof.
  induction l as [|x l IH]; simpl; [done|].
  by rewrite sortInsert_perm, IH.
Qed.

(** A consistent comparator orders any two elements one way or the other. *)
Hypothesis comparefn_total : ∀ x y, comparefn x y ≤ 0 ∨ comparefn y x ≤ 0.

Lemma sortInsert_HdRel x y l :
  notAfter comparefn y x →
  HdRel (notAfter comparefn) y l →
  HdRel (notAfter comparefn) y (sortInsert comparefn x l).
Proof.
  intros Hyx Hy. destruct l as [|z l]; simpl; [by constructor|].
  destruct (comparefn x z <=? 0); constructor; [done|].
  by inversion Hy.
Qed.

Lemma sortInsert_Sorted x l :
  Sorted (notAfter comparefn) l →
  Sorted (notAfter comparefn) (sortInsert comparefn x l).
Proof.
  induction 1 as [|y l Hl IH Hy]; simpl; [by repeat constructor|].
  destruct (Z.leb_spec (comparefn x y) 0) as [Hxy|Hxy].
  - constructor; [by constructor|by constructor].
  - constructor; [done|]. apply sortInsert_HdRel; [|done].
    destruct (comparefn_total x y); [lia|done].
Qed.

Lemma sort_Sorted l : Sorted (notAfter comparefn) (sort comparefn l).
Proof.
  induction l as [|x l IH]; simpl; [constructor|]. by apply sortInsert_Sorted.
Qed.

(** Stability: the elements of a class of mutually tied elements keep the
    order they had before the sort. *)
Section Stable.
Context (P : A → Prop) `{!∀ x, Decision (P x)}.
Hypothesis P_tied : ∀ x y, P x → P y → comparefn x y ≤ 0.

Lemma sortInsert_filter x l :
  filter P (sortInsert comparefn x l) = filter P (x :: l).
Proof.
  induction l as [|y l IH]; simpl; [done|].
  destruct (Z.leb_spec (comparefn x y) 0) as [Hxy|Hxy]; [done|].
  rewrite filter_cons, IH.
  destruct (decide (P x)) as [Hx|Hx].
  - assert (¬ P y) as Hy by (intros Hy; specialize (P_tied x y Hx Hy); lia).
    rewrite decide_False by done.
    rewrite (filter_cons_True _ x (y :: l)) by done.
    rewrite (filter_cons_False _ y) by done.
    by rewrite filter_cons_True.
  - rewrite !(filter_cons_False _ x) by done. by rewrite filter_cons.
Qed.

Lemma sort_filter l : filter P (sort comparefn l) = filter P l.
Proof.
  induction l as [|x l IH]; simpl; [done|].
  by rewrite sortInsert_filter, !filter_cons, IH.
Qed.
End Stable.
End SortFacts.

Lemma byStart_le a b : byStart a b ≤ 0 ↔ start a ≤ start b.
Proof. unfold byStart. lia. Qed.

Lemma sortedItems_perm cs os : sortedItems cs os ≡ₚ merged cs os.
Proof. apply sort_perm. Qed.

Lemma Sorted_weaken {A} (R1 R2 : relation A) (l : list A) :
  (∀ x y, R1 x y → R2 x y) → Sorted R1 l → Sorted R2 l.
Proof.
  intros HR. induction 1 as [|x l Hl IH Hx]; constructor; [done|].
  destruct Hx; constructor; auto.
Qed.

Lemma sortedItems_Sorted cs os :
  Sorted (fun a b => start a ≤ start b) (sortedItems cs os).
Proof.
  eapply Sorted_weaken; [|apply sort_Sorted].
  - intros a b. apply byStart_le.
  - intros a b. unfold byStart. lia.
Qed.

Lemma sortedItems_stable cs os k :
  filter (fun i => start i = k) (sortedItems cs os)
  = filter (fun i => start i = k) (merged cs os).
Proof. apply sort_filter. intros a b Ha Hb. unfold byStart. simpl in *. lia. Qed.

Lemma filter_fmap_renderItem (k : Z) (l : list Item) :
  filter (fun q => from q = k) (renderItem <$> l)
  = renderItem <$> filter (fun i => start i = k) l.
Proof.
  induction l as [|x l IH]; [done|]. csimpl.
  rewrite !filter_cons, IH. simpl. by destruct (decide (start x = k)).
Qed.

(** On a run of appends the sort returns the items in the order of their
    creation, after the items the run started from when these are in the
    order of their starts. *)
Lemma sortedItems_chronological s0 chron l :
  chron ≡ₚ allItems s0 →
  StronglySorted (fun a b => start a < start b) chron →
  Forall (fun i => 0 < duration i) chron →
  sortedItems (clips (appendAll s0 l)) (textOverlays (appendAll s0 l))
  = chron ++ journal s0 l.
Proof.
  intros Hchron Hsorted Hpos.
  assert (StronglySorted (fun a b => start a < start b) (chron ++ journal s0 l)) as Hj.
  { apply StronglySorted_app. split; [|split; [done|apply journal_increasing]].
    intros x1 x2 H1 H2.
    pose proof (journal_after s0 l) as Hafter. rewrite Forall_forall in Hafter.
    destruct (Hafter _ H2) as [Hx2 _].
    rewrite Forall_forall in Hpos. specialize (Hpos _ H1).
    rewrite Hchron in H1. apply frontier_upper in H1. unfold itemEnd in H1. lia. }
  assert (sortedItems (clips (appendAll s0 l)) (textOverlays (appendAll s0 l))
          ≡ₚ chron ++ journal s0 l) as Hp.
  { rewrite sortedItems_perm, Hchron. apply (allItems_appendAll s0 l). }
  apply (StronglySorted_unique_strong (fun a b => start a ≤ start b)); [| | |done].
  - intros x1 x2 H1 H2 H12 H21. rewrite Hp in H1.
    apply list_elem_of_lookup in H1 as [i1 Hi1], H2 as [i2 Hi2].
    destruct (decide (i1 = i2)) as [->|Hne]; [congruence|].
    destruct (decide (i1 < i2)%nat) as [Hlt|Hge].
    + pose proof (StronglySorted_lookup_lt _ _ i1 i2 _ _ Hj Hlt Hi1 Hi2).
      simpl in *. lia.
    + assert (i2 < i1)%nat as Hlt by lia.
      pose proof (StronglySorted_lookup_lt _ _ i2 i1 _ _ Hj Hlt Hi2 Hi1).
      simpl in *. lia.
  - apply Sorted_StronglySorted; [|apply sortedItems_Sorted].
    intros a b c. lia.
  - clear Hp. induction Hj as [|x l' Hj IH Hx]; constructor; [done|].
    eapply Forall_impl; [apply Hx|]. intros; simpl in *; lia.
Qed.

Lemma sortedItems_journal l :
  sortedItems (clips (appendAll initialState l)) (textOverlays (appendAll initialState l))
  = journal initialState l.
Proof. by apply (sortedItems_chronological initialState []); [|constructor|]. Qed.

Lemma sortedItems_seeded w l :
  sortedItems (clips (appendAll (mount w initialState) l))
              (textOverlays (appendAll (mount w initialState) l))
  = [ClipItem initialClip; TextItem initialTextOverlay]
    ++ journal (mount w initialState) l.
Proof.
  apply (sortedItems_chronological (mount w initialState)); [done| |].
  - repeat constructor.
  - by repeat constructor.
Qed.

(** ** Placement invariants *)

Lemma allItems_empty s : clips s = [] → textOverlays s = [] → allItems s = [].
Proof. unfold allItems, merged. by intros -> ->. Qed.

Lemma created_IsLastEnd s a : IsLastEnd (allItems s) (start (created s a)).
Proof. rewrite created_start, frontier_maxEnd. apply maxEndFrom_IsLastEnd. Qed.

Lemma NoOverlap_appendAll s0 l :
  clips s0 = [] → textOverlays s0 = [] → NoOverlap (allItems (appendAll s0 l)).
Proof.
  intros Hc Ho. apply (NoOverlap_perm (journal s0 l)).
  - by rewrite allItems_appendAll, allItems_empty.
  - apply NoOverlap_sorted, journal_sorted.
Qed.

(** C1 (non-overlap).  Whatever sequence of [addClip] / [addTextOverlay]
    calls is run from empty collections, no two items of the union of the
    clips and the text overlays have a frame in common, the intervals being
    [[start, start + duration)]; and in any state the start of the item an
    append creates is the largest [start + duration] over the items of both
    collections (0 when there is none). *)
Theorem appends_never_overlap :
  (∀ (s0 : EditorState) (l : list Append),
      clips s0 = [] → textOverlays s0 = [] →
      NoOverlap (allItems (appendAll s0 l)))
  ∧ (∀ (s : EditorState) (a : Append),
      IsLastEnd (allItems s) (start (created s a))).
Proof.
  split; [|apply created_IsLastEnd].
  intros s0 l Hc Ho. by apply NoOverlap_appendAll.
Qed.

Lemma appends_never_overlap_witness :
  NoOverlap (allItems (appendAll initialState
    [AppendMediaClip; AppendTextOverlay; AppendTextOverlay; AppendMediaClip])).
Proof.
  apply (proj1 appends_never_overlap initialState
           [AppendMediaClip; AppendTextOverlay; AppendTextOverlay; AppendMediaClip]);
    reflexivity.
Defined.

(** ** Duration consistency *)

Lemma DurationConsistent_append s a : DurationConsistent (append s a).
Proof.
  unfold DurationConsistent.
  assert (created s a ∈ allItems (append s a)) as Hin.
  { rewrite allItems_append. apply elem_of_app. right. left. }
  destruct (allItems (append s a)) as [|x l'] eqn:Heq.
  - by apply elem_of_nil in Hin.
  - rewrite <-Heq in *. rewrite totalDuration_append. split.
    + intros i. apply frontier_upper.
    + exists (created s a). split; [done|].
      unfold itemEnd. by rewrite created_start, frontier_append.
Qed.

Lemma sameItems_allItems s1 s2 : sameItems s1 s2 → allItems s1 = allItems s2.
Proof. unfold allItems. by intros [-> ->]. Qed.

Lemma handle_other_sameItems s e :
  e ≠ OnAddClip → e ≠ OnAddText →
  sameItems (handle s e) s ∧ totalDuration (handle s e) = totalDuration s.
Proof.
  intros H1 H2. destruct e as [| |p|p|w|t|]; try done; simpl.
  - by destruct p.
  - by destruct p as [[f|]|].
Qed.

Lemma DurationConsistent_mounted s : mounted s → DurationConsistent s.
Proof.
  induction 1 as [w|s e Hs IH].
  - unfold DurationConsistent. simpl. split.
    + intros i Hi. repeat (apply elem_of_cons in Hi as [->|Hi]; [by vm_compute|]).
      by apply elem_of_nil in Hi.
    + exists (ClipItem initialClip). split; [left|done].
  - destruct e as [| |p|p|w|t|] eqn:He;
      [apply (DurationConsistent_append s AppendMediaClip)
      |apply (DurationConsistent_append s AppendTextOverlay)|..].
    all: rewrite <-He; destruct (handle_other_sameItems s e) as [Hitems Htot];
      [by rewrite He..|].
    all: unfold DurationConsistent in *.
    all: by rewrite (sameItems_allItems _ _ Hitems), Htot.
Qed.

(** C2 (duration consistency).  After every append, from any state, the
    [totalDuration] cell holds the largest [start + duration] over the items
    of both collections; it holds 1 while there is no item; and this is so
    in every state the component is rendered with. *)
Theorem totalDuration_consistent :
  (∀ (s : EditorState) (a : Append), DurationConsistent (append s a))
  ∧ DurationConsistent initialState
  ∧ (∀ s : EditorState, reachable s → DurationConsistent s).
Proof.
  split; [apply DurationConsistent_append|]. split; [done|].
  intros s [->|Hs]; [done|by apply DurationConsistent_mounted].
Qed.

Lemma totalDuration_consistent_witness :
  DurationConsistent (handle (mount 1024 initialState) OnAddText).
Proof.
  apply (proj2 (proj2 totalDuration_consistent)).
  right. apply mounted_event, mounted_first.
Defined.

(** C3 (scenario).  From empty collections [addClip] gives the single clip
    [clip-1] at frame 0 with duration 200 on row 0 and a total of 200; then
    [addTextOverlay] gives the single overlay [text-1] at frame 200 with
    duration 100 on row 0 and a total of 300. *)
Theorem chained_append_scenario :
  let s1 := addClip initialState in
  let s2 := addTextOverlay s1 in
  clips s1 = [Clip.mk "clip-1" 0 200 videoSrc 0]
  ∧ textOverlays s1 = []
  ∧ totalDuration s1 = 200
  ∧ clips s2 = clips s1
  ∧ textOverlays s2 = [TextOverlay.mk "text-1" 200 100 "BUILD." 0]
  ∧ totalDuration s2 = 300.
Proof. vm_compute. repeat split. Qed.

(** ** Order inside each collection *)

Lemma clips_increasing s0 l :
  clips s0 = [] →
  StronglySorted (fun a b => Clip.start a < Clip.start b) (clips (appendAll s0 l)).
Proof.
  intros Hc.
  apply (StronglySorted_fmap_inv ClipItem _ (fun a b => start a < start b)); [done|].
  rewrite clips_appendAll, Hc. simpl.
  apply (StronglySorted_filter _ _), journal_increasing.
Qed.

Lemma textOverlays_increasing s0 l :
  textOverlays s0 = [] →
  StronglySorted (fun a b => TextOverlay.start a < TextOverlay.start b)
    (textOverlays (appendAll s0 l)).
Proof.
  intros Ho.
  apply (StronglySorted_fmap_inv TextItem _ (fun a b => start a < start b)); [done|].
  rewrite textOverlays_appendAll, Ho. simpl.
  apply (StronglySorted_filter _ _), journal_increasing.
Qed.

(** C10 (order of each collection).  On every run of appends from empty
    collections the clips are strictly increasing by start in the order of
    the array, and so are the text overlays; an append puts its item at the
    end of its own array, leaves the other array alone, and gives the item a
    start that is at least the end frame of every item present in either
    array. *)
Theorem collections_strictly_sorted :
  (∀ (s0 : EditorState) (l : list Append),
      clips s0 = [] → textOverlays s0 = [] →
      StronglySorted (fun a b => Clip.start a < Clip.start b)
        (clips (appendAll s0 l))
      ∧ StronglySorted (fun a b => TextOverlay.start a < TextOverlay.start b)
          (textOverlays (appendAll s0 l)))
  ∧ (∀ s : EditorState,
      clips (addClip s) = clips s ++ [newClip s]
      ∧ textOverlays (addClip s) = textOverlays s
      ∧ ∀ i, i ∈ allItems s → itemEnd i ≤ Clip.start (newClip s))
  ∧ (∀ s : EditorState,
      textOverlays (addTextOverlay s) = textOverlays s ++ [newOverlay s]
      ∧ clips (addTextOverlay s) = clips s
      ∧ ∀ i, i ∈ allItems s → itemEnd i ≤ TextOverlay.start (newOverlay s)).
Proof.
  split; [|split].
  - intros s0 l Hc Ho. split; [by apply clips_increasing|by apply textOverlays_increasing].
  - intros s. repeat split. intros i. rewrite newClip_start. apply frontier_upper.
  - intros s. repeat split. intros i. rewrite newOverlay_start. apply frontier_upper.
Qed.

Lemma collections_strictly_sorted_witness :
  (StronglySorted (fun a b => Clip.start a < Clip.start b)
     (clips (appendAll initialState [AppendMediaClip; AppendTextOverlay; AppendMediaClip]))
   ∧ StronglySorted (fun a b => TextOverlay.start a < TextOverlay.start b)
       (textOverlays
          (appendAll initialState [AppendMediaClip; AppendTextOverlay; AppendMediaClip])))
  ∧ itemEnd (TextItem initialTextOverlay)
    ≤ Clip.start (newClip (mount 1024 initialState))
  ∧ itemEnd (ClipItem initialClip)
    ≤ TextOverlay.start (newOverlay (mount 1024 initialState)).
Proof.
  pose proof collections_strictly_sorted as (Hsorted & Hclip & Htext).
  split; [|split].
  - apply (Hsorted initialState [AppendMediaClip; AppendTextOverlay; AppendMediaClip]);
      reflexivity.
  - apply (Hclip (mount 1024 initialState)). right. left.
  - apply (Htext (mount 1024 initialState)). left.
Defined.

(** ** The anchor of the placement *)

(** The accumulator holds the first element that reaches the running
    maximum. *)
Lemma foldl_pickLatestEnd_first acc l x :
  foldl pickLatestEnd acc l = Picked x →
  (acc = Picked x ∧ Forall (fun y => itemEnd y ≤ itemEnd x) l)
  ∨ ∃ l1 l2, l = l1 ++ x :: l2
      ∧ latestEnd acc < itemEnd x
      ∧ Forall (fun y => itemEnd y < itemEnd x) l1
      ∧ Forall (fun y => itemEnd y ≤ itemEnd x) l2.
Proof.
  revert acc. induction l as [|y l IH]; intros acc Hf; simpl in Hf.
  - left. by split.
  - destruct (IH _ Hf) as [[Hacc Hall]|(l1 & l2 & -> & Hlt & H1 & H2)].
    + unfold pickLatestEnd in Hacc.
      destruct (Z.ltb_spec (latestEnd acc) (itemEnd y)) as [Hlt|Hge].
      * injection Hacc as ->. right. exists [], l. by repeat split.
      * subst acc. left. split; [done|]. constructor; [|done].
        by change (latestEnd (Picked x)) with (itemEnd x) in Hge.
    + right. exists (y :: l1), l2. split; [done|].
      unfold pickLatestEnd in Hlt.
      destruct (Z.ltb_spec (latestEnd acc) (itemEnd y)) as [Hy|Hy].
      * change (latestEnd (Picked y)) with (itemEnd y) in Hlt.
        repeat split; [lia| |done]. constructor; [lia|done].
      * repeat split; [lia| |done]. constructor; [lia|done].
Qed.

Lemma lastItem_Origin s :
  lastItem s = Origin → Forall (fun y => itemEnd y ≤ 0) (allItems s).
Proof.
  intros Hl. apply Forall_forall. intros i Hi.
  apply frontier_upper in Hi. unfold frontier in Hi. by rewrite Hl in Hi.
Qed.

(** C6 (tie-break of the anchor).  The reducer keeps its accumulator when the
    item has the same end frame; hence the anchor of a placement is the first
    item of [[...clips, ...textOverlays]] whose end frame is the largest one,
    or the literal [{ start: 0, duration: 0 }] when no item ends after frame
    0; and the new item starts at [anchor.start + anchor.duration]. *)
Theorem anchor_first_seen_wins :
  (∀ (latest : Latest) (item : Item),
      itemEnd item = latestEnd latest → pickLatestEnd latest item = latest)
  ∧ (∀ (s : EditorState) (x : Item),
      lastItem s = Picked x →
      0 < itemEnd x
      ∧ ∃ l1 l2, allItems s = l1 ++ x :: l2
          ∧ Forall (fun y => itemEnd y < itemEnd x) l1
          ∧ Forall (fun y => itemEnd y ≤ itemEnd x) l2)
  ∧ (∀ s : EditorState,
      lastItem s = Origin → Forall (fun y => itemEnd y ≤ 0) (allItems s))
  ∧ (∀ (s : EditorState) (i : Item),
      i ∈ allItems s → 0 < itemEnd i → ∃ x, lastItem s = Picked x)
  ∧ (∀ s : EditorState,
      Clip.start (newClip s) = latestStart (lastItem s) + latestDuration (lastItem s)
      ∧ TextOverlay.start (newOverlay s)
        = latestStart (lastItem s) + latestDuration (lastItem s)).
Proof.
  split; [|split; [|split; [|split; [|done]]]].
  - intros latest item Heq. unfold pickLatestEnd.
    destruct (Z.ltb_spec (latestEnd latest) (itemEnd item)); [lia|done].
  - intros s x Hx.
    apply foldl_pickLatestEnd_first in Hx as [[? _]|(l1 & l2 & Heq & Hlt & H1 & H2)];
      [done|].
    split; [by simpl in Hlt|by exists l1, l2].
  - apply lastItem_Origin.
  - intros s i Hi Hpos. destruct (lastItem s) as [|x] eqn:Hl; [|by exists x].
    apply lastItem_Origin in Hl. rewrite Forall_forall in Hl.
    specialize (Hl _ Hi). lia.
Qed.

Lemma anchor_first_seen_wins_witness :
  pickLatestEnd (Picked (ClipItem (Clip.mk "clip-1" 0 200 videoSrc 0)))
                (TextItem (TextOverlay.mk "text-1" 100 100 "BUILD." 0))
  = Picked (ClipItem (Clip.mk "clip-1" 0 200 videoSrc 0))
  ∧ (0 < itemEnd (ClipItem initialClip)
     ∧ ∃ l1 l2, allItems (mount 1024 initialState) = l1 ++ ClipItem initialClip :: l2
         ∧ Forall (fun y => itemEnd y < itemEnd (ClipItem initialClip)) l1
         ∧ Forall (fun y => itemEnd y ≤ itemEnd (ClipItem initialClip)) l2)
  ∧ Forall (fun y => itemEnd y ≤ 0) (allItems initialState)
  ∧ ∃ x, lastItem (addClip initialState) = Picked x.
Proof.
  pose proof anchor_first_seen_wins as (Htie & Hfirst & Horigin & Hpicked & _).
  split; [|split; [|split]].
  - apply Htie. reflexivity.
  - apply (Hfirst (mount 1024 initialState)). reflexivity.
  - apply Horigin. reflexivity.
  - apply (Hpicked (addClip initialState) (ClipItem (newClip initialState))).
    + left.
    + reflexivity.
Defined.

(** ** The duration aggregator *)

(** C7 (aggregator).  [updateTotalDuration] stores the larger of
    [lastClipEnd] and [lastTextOverlayEnd], each being the largest
    [start + duration] of its array or 0, whichever is larger; with both
    arrays empty it stores 0, not 1; the floor of 1 is the [Math.max] in the
    [durationInFrames] property of the player. *)
Theorem aggregator_is_max_of_ends :
  (∀ (cs : list Clip.t) (os : list TextOverlay.t) (s : EditorState),
      totalDuration (updateTotalDuration cs os s)
      = Z.max (lastClipEnd cs) (lastTextOverlayEnd os)
      ∧ IsLastEnd (ClipItem <$> cs) (lastClipEnd cs)
      ∧ IsLastEnd (TextItem <$> os) (lastTextOverlayEnd os)
      ∧ IsLastEnd (merged cs os) (totalDuration (updateTotalDuration cs os s)))
  ∧ (∀ s : EditorState, totalDuration (updateTotalDuration [] [] s) = 0)
  ∧ (∀ s : EditorState,
      playerDurationInFrames (totalDuration (updateTotalDuration [] [] s)) = 1)
  ∧ (∀ t : Z, playerDurationInFrames t = Z.max 1 t).
Proof.
  repeat split.
  - rewrite lastClipEnd_items. apply maxEndFrom_ge.
  - rewrite lastClipEnd_items. intros i. apply maxEndFrom_upper.
  - rewrite lastClipEnd_items. apply maxEndFrom_attained.
  - rewrite lastTextOverlayEnd_items. apply maxEndFrom_ge.
  - rewrite lastTextOverlayEnd_items. intros i. apply maxEndFrom_upper.
  - rewrite lastTextOverlayEnd_items. apply maxEndFrom_attained.
  - simpl. rewrite newTotalDuration_items. apply maxEndFrom_ge.
  - simpl. rewrite newTotalDuration_items. intros i. apply maxEndFrom_upper.
  - simpl. rewrite newTotalDuration_items. apply maxEndFrom_attained.
Qed.

(** ** The composition builder *)

(** C5 (ordering).  For all collections the sequences of the composition
    are in non-decreasing order of [from]; the sequences that share a start
    frame come in the order their items have in [[...clips, ...textOverlays]],
    each array being in the order of its appends; and on a run of appends
    from the empty timeline, or from the timeline seeded on mount, the
    composition lists the items in the order of their creation. *)
Theorem composition_sorted_and_stable :
  (∀ s : EditorState, Sorted (fun p q => from p ≤ from q) (Composition s))
  ∧ (∀ (s : EditorState) (k : Z),
      filter (fun q => from q = k) (Composition s)
      = renderItem <$> filter (fun i => start i = k) (allItems s))
  ∧ (∀ s : EditorState, Composition s ≡ₚ renderItem <$> allItems s)
  ∧ (∀ l : list Append,
      Composition (appendAll initialState l) = renderItem <$> journal initialState l)
  ∧ (∀ (innerWidth : Z) (l : list Append),
      Composition (appendAll (mount innerWidth initialState) l)
      = renderItem <$> ([ClipItem initialClip; TextItem initialTextOverlay]
                        ++ journal (mount innerWidth initialState) l)).
Proof.
  split; [|split; [|split; [|split]]].
  - intros s. unfold Composition.
    apply (Sorted_fmap _ (fun a b => start a ≤ start b)); [done|].
    apply sortedItems_Sorted.
  - intros s k. unfold Composition.
    by rewrite filter_fmap_renderItem, sortedItems_stable.
  - intros s. unfold Composition. by rewrite sortedItems_perm.
  - intros l. unfold Composition. by rewrite sortedItems_journal.
  - intros w l. unfold Composition. by rewrite sortedItems_seeded.
Qed.

(** ** Where the items come from *)

Lemma seeded_items_overlap : ¬ NoOverlap (allItems (mount 1024 initialState)).
Proof.
  intros Hno.
  apply (Hno 0%nat 1%nat (ClipItem initialClip) (TextItem initialTextOverlay));
    [done..|].
  exists 50. by vm_compute.
Qed.

Lemma newClip_sameItems s s' : sameItems s s' → newClip s = newClip s'.
Proof.
  intros Hs. unfold newClip, lastItem.
  rewrite (sameItems_allItems _ _ Hs). by destruct Hs as [-> _].
Qed.

Lemma newOverlay_sameItems s s' : sameItems s s' → newOverlay s = newOverlay s'.
Proof.
  intros Hs. unfold newOverlay, lastItem.
  rewrite (sameItems_allItems _ _ Hs). by destruct Hs as [_ ->].
Qed.

Lemma append_sameItems s s' a :
  sameItems s s' → sameItems (append s a) (append s' a).
Proof.
  intros Hs. pose proof (newClip_sameItems _ _ Hs) as Hc.
  pose proof (newOverlay_sameItems _ _ Hs) as Ho.
  destruct Hs as [Hcs Hos]. destruct a; split; simpl; congruence.
Qed.

Lemma mounted_from_seed s :
  mounted s → ∃ l, sameItems s (appendAll (seedEffect initialState) l).
Proof.
  induction 1 as [w|s e Hs [l IH]].
  - by exists [].
  - destruct e as [| |p|p|w|t|] eqn:He.
    + exists (l ++ [AppendMediaClip]). unfold appendAll. rewrite foldl_snoc.
      by apply (append_sameItems _ _ AppendMediaClip).
    + exists (l ++ [AppendTextOverlay]). unfold appendAll. rewrite foldl_snoc.
      by apply (append_sameItems _ _ AppendTextOverlay).
    + exists l. by destruct p.
    + exists l. by destruct p as [[f|]|].
    + by exists l.
    + by exists l.
    + by exists l.
Qed.

(** C4, as the specification words it, fails: the state after mount is
    reachable and holds the two items of the seeding effect, the overlay
    starting at frame 50 inside the clip, which no run of appends from the
    empty timeline produces. *)
Lemma seed_items_not_appended :
  reachable (mount 1024 initialState)
  ∧ clips (mount 1024 initialState) = [initialClip]
  ∧ textOverlays (mount 1024 initialState) = [initialTextOverlay]
  ∧ ¬ ∃ l, sameItems (mount 1024 initialState) (appendAll initialState l).
Proof.
  split; [right; apply mounted_first|]. split; [done|]. split; [done|].
  intros [l Hl]. apply seeded_items_overlap.
  rewrite (sameItems_allItems _ _ Hl). by apply NoOverlap_appendAll.
Qed.

(** C4 (origin of the items), amended.  In every reachable state the two
    collections are the empty ones of the first render, or those obtained
    from the pair installed by the seeding effect on mount by a run of
    appends; an append adds its item at the end of its own array and keeps
    every other item as it is; no other handler changes either array. *)
Theorem items_from_seed_or_appends :
  (∀ s : EditorState, reachable s →
      sameItems s initialState
      ∨ ∃ l, sameItems s (appendAll (seedEffect initialState) l))
  ∧ (∀ (s : EditorState) (e : Event),
      e ≠ OnAddClip → e ≠ OnAddText → sameItems (handle s e) s)
  ∧ (∀ s : EditorState,
      clips (addClip s) = clips s ++ [newClip s]
      ∧ textOverlays (addClip s) = textOverlays s)
  ∧ (∀ s : EditorState,
      textOverlays (addTextOverlay s) = textOverlays s ++ [newOverlay s]
      ∧ clips (addTextOverlay s) = clips s).
Proof.
  split; [|split; [|by split]].
  - intros s [->|Hs]; [by left|right; by apply mounted_from_seed].
  - intros s e H1 H2. by apply handle_other_sameItems.
Qed.

Lemma items_from_seed_or_appends_witness :
  (sameItems (handle (mount 1024 initialState) OnAddClip) initialState
   ∨ ∃ l, sameItems (handle (mount 1024 initialState) OnAddClip)
            (appendAll (seedEffect initialState) l))
  ∧ sameItems (handle (mount 1024 initialState) (OnPlayPause true))
              (mount 1024 initialState).
Proof.
  pose proof items_from_seed_or_appends as (Hreach & Hother & _).
  split.
  - apply Hreach. right. apply mounted_event, mounted_first.
  - apply Hother; discriminate.
Defined.

(** ** Validation *)

(** [addClip] and [addTextOverlay] check nothing and take no item from their
    caller.  The item they build, in any state, starts at frame 0 or later
    and lasts 200 or 100 frames, and the items already held stay in the
    collections. *)
Lemma created_wellFormed s a :
  wellFormed (created s a)
  ∧ (duration (created s a) = 200 ∨ duration (created s a) = 100)
  ∧ (∀ i, i ∈ allItems s → i ∈ allItems (append s a)).
Proof.
  split; [|split].
  - split; [rewrite created_start; apply frontier_nonneg|apply created_duration_pos].
  - destruct a; [by left|by right].
  - intros i Hi. rewrite allItems_append. apply elem_of_app. by left.
Qed.

(** ** Further properties of the placement and of the aggregator *)

Lemma frontier_sameItems s1 s2 : sameItems s1 s2 → frontier s1 = frontier s2.
Proof. intros Hs. by rewrite !frontier_maxEnd, (sameItems_allItems _ _ Hs). Qed.

Lemma handle_asAppend_None s e :
  asAppend e = None →
  sameItems (handle s e) s ∧ totalDuration (handle s e) = totalDuration s.
Proof. intros He. apply handle_other_sameItems; by intros ->. Qed.

Lemma handle_asAppend_Some s e a : asAppend e = Some a → handle s e = append s a.
Proof. destruct e; simpl; intros He; by simplify_eq. Qed.

(** After mount the stored total is the frame at which the next item is
    placed. *)
Lemma mounted_totalDuration_frontier s : mounted s → totalDuration s = frontier s.
Proof.
  induction 1 as [w|s e Hs IH]; [done|].
  destruct (asAppend e) as [a|] eqn:He.
  - rewrite (handle_asAppend_Some _ _ _ He). apply totalDuration_append.
  - destruct (handle_asAppend_None s e He) as [Hitems ->].
    by rewrite (frontier_sameItems _ _ Hitems).
Qed.


(** The anchor found by the reduction of [addClip] / [addTextOverlay] ends
    at the frame that [updateTotalDuration] computes from the same arrays. *)
Theorem anchor_end_is_aggregate :
  ∀ s : EditorState,
    latestStart (lastItem s) + latestDuration (lastItem s)
    = totalDuration (updateTotalDuration (clips s) (textOverlays s) s).
Proof.
  intros s. simpl. rewrite newTotalDuration_items.
  apply (frontier_maxEnd s).
Qed.

Lemma created_duration s a : duration (created s a) = defaultDuration a.
Proof. by destruct a. Qed.

Lemma mounted_append_total s a :
  mounted s → totalDuration (append s a) = totalDuration s + defaultDuration a.
Proof.
  intros Hs. rewrite totalDuration_append, frontier_append, created_duration.
  by rewrite (mounted_totalDuration_frontier s Hs).
Qed.

(** In a mounted component an append places its item at the stored total and
    extends the total by exactly the duration of the item: 200 frames for a
    clip, 100 for a text overlay. *)
Theorem mounted_append_extends_total :
  ∀ s : EditorState, mounted s →
    Clip.start (newClip s) = totalDuration s
    ∧ TextOverlay.start (newOverlay s) = totalDuration s
    ∧ totalDuration (addClip s) = totalDuration s + 200
    ∧ totalDuration (addTextOverlay s) = totalDuration s + 100.
Proof.
  intros s Hs. pose proof (mounted_totalDuration_frontier s Hs) as Htot.
  rewrite newClip_start, newOverlay_start, <-Htot. repeat split.
  - by apply (mounted_append_total s AppendMediaClip).
  - by apply (mounted_append_total s AppendTextOverlay).
Qed.

Lemma mounted_append_extends_total_witness :
  Clip.start (newClip (mount 1024 initialState)) = 200
  ∧ totalDuration (addTextOverlay (mount 1024 initialState)) = 300.
Proof.
  pose proof (mounted_append_extends_total (mount 1024 initialState)
                (mounted_first 1024)) as (Hc & _ & _ & Ht).
  split; [exact Hc|exact Ht].
Defined.

Lemma run_snoc s evs e : run s (evs ++ [e]) = handle (run s evs) e.
Proof. apply foldl_snoc. Qed.

Lemma mounted_run w evs : mounted (run (mount w initialState) evs).
Proof.
  induction evs as [|e evs IH] using rev_ind; [apply mounted_first|].
  rewrite run_snoc. by apply mounted_event.
Qed.

Lemma appendedFrames_snoc evs e :
  appendedFrames (evs ++ [e])
  = appendedFrames evs + from_option defaultDuration 0 (asAppend e).
Proof.
  unfold appendedFrames. rewrite omap_app, fmap_app, foldr_app. simpl.
  generalize (defaultDuration <$> omap asAppend evs). intros l.
  destruct (asAppend e) as [a|]; simpl.
  - induction l as [|x l IH]; simpl; [lia|]. rewrite IH. lia.
  - lia.
Qed.

(** The stored total of a session is 200, the end of the seeded clip, plus
    200 for every clip and 100 for every text overlay added since; no other
    event changes it. *)
Theorem session_totalDuration :
  ∀ (innerWidth : Z) (evs : list Event),
    totalDuration (run (mount innerWidth initialState) evs)
    = 200 + appendedFrames evs.
Proof.
  intros w evs. induction evs as [|e evs IH] using rev_ind; [done|].
  rewrite run_snoc, appendedFrames_snoc.
  pose proof (mounted_run w evs) as Hm.
  destruct (asAppend e) as [a|] eqn:He; simpl.
  - rewrite (handle_asAppend_Some _ _ _ He).
    rewrite (mounted_append_total _ a Hm). lia.
  - destruct (handle_asAppend_None (run (mount w initialState) evs) e He) as [_ ->].
    lia.
Qed.

(** The aggregator depends on the items only, not on their order nor on the
    array that holds them, and adding items never lowers its result. *)
Theorem aggregator_order_irrelevant :
  ∀ (cs cs' : list Clip.t) (os os' : list TextOverlay.t),
    merged cs os ≡ₚ merged cs' os' →
    newTotalDuration cs os = newTotalDuration cs' os'.
Proof.
  intros cs cs' os os' Hp. rewrite !newTotalDuration_items.
  by apply maxEndFrom_perm.
Qed.

Lemma aggregator_order_irrelevant_witness :
  newTotalDuration [initialClip; Clip.mk "clip-2" 200 200 videoSrc 0] [initialTextOverlay]
  = newTotalDuration [Clip.mk "clip-2" 200 200 videoSrc 0; initialClip] [initialTextOverlay].
Proof.
  apply aggregator_order_irrelevant. unfold merged. simpl. apply Permutation_swap.
Defined.

Theorem aggregator_monotone :
  ∀ (cs cs' : list Clip.t) (os os' : list TextOverlay.t),
    newTotalDuration cs os ≤ newTotalDuration (cs ++ cs') (os ++ os').
Proof.
  intros cs cs' os os'. rewrite !newTotalDuration_items.
  destruct (maxEndFrom_attained 0 (merged cs os)) as [->|(i & Hi & <-)].
  - apply maxEndFrom_ge.
  - apply maxEndFrom_upper. unfold merged in *.
    rewrite !fmap_app, !elem_of_app. rewrite elem_of_app in Hi. tauto.
Qed.

(** ** What a session holds *)

(** The shape of the items of the mounted component. *)
Lemma mounted_clips_shape s :
  mounted s →
  Forall (fun c => 0 ≤ Clip.start c ∧ Clip.duration c = 200
                   ∧ Clip.row c = 0 ∧ Clip.src c = videoSrc) (clips s).
Proof.
  induction 1 as [w|s e Hs IH]; [by repeat constructor|].
  destruct e as [| |p|p|w|t|]; simpl; try done.
  - apply Forall_app. split; [done|]. repeat constructor.
    rewrite newClip_start. apply frontier_nonneg.
  - by destruct p.
  - by destruct p as [[f|]|].
Qed.

Lemma mounted_textOverlays_shape s :
  mounted s →
  Forall (fun o => 0 ≤ TextOverlay.start o ∧ TextOverlay.duration o = 100
                   ∧ TextOverlay.row o = 0 ∧ TextOverlay.text o = "BUILD.")
         (textOverlays s).
Proof.
  induction 1 as [w|s e Hs IH]; [by repeat constructor|].
  destruct e as [| |p|p|w|t|]; simpl; try done.
  - apply Forall_app. split; [done|]. repeat constructor.
    rewrite newOverlay_start. apply frontier_nonneg.
  - by destruct p.
  - by destruct p as [[f|]|].
Qed.

(** In every state the component is rendered with, each clip starts at a
    frame that is not negative, lasts 200 frames, lies on row 0 and plays the
    one video source; each text overlay starts at a frame that is not
    negative, lasts 100 frames, lies on row 0 and reads BUILD. *)
Theorem reachable_items_shape :
  ∀ s : EditorState, reachable s →
    Forall (fun c => 0 ≤ Clip.start c ∧ Clip.duration c = 200
                     ∧ Clip.row c = 0 ∧ Clip.src c = videoSrc) (clips s)
    ∧ Forall (fun o => 0 ≤ TextOverlay.start o ∧ TextOverlay.duration o = 100
                       ∧ TextOverlay.row o = 0 ∧ TextOverlay.text o = "BUILD.")
             (textOverlays s).
Proof.
  intros s [->|Hs]; [by split; constructor|].
  split; [by apply mounted_clips_shape|by apply mounted_textOverlays_shape].
Qed.

Lemma reachable_items_shape_witness :
  Forall (fun c => 0 ≤ Clip.start c ∧ Clip.duration c = 200
                   ∧ Clip.row c = 0 ∧ Clip.src c = videoSrc)
         (clips (handle (mount 1024 initialState) OnAddClip))
  ∧ Forall (fun o => 0 ≤ TextOverlay.start o ∧ TextOverlay.duration o = 100
                     ∧ TextOverlay.row o = 0 ∧ TextOverlay.text o = "BUILD.")
           (textOverlays (handle (mount 1024 initialState) OnAddClip)).
Proof.
  apply reachable_items_shape. right. apply mounted_event, mounted_first.
Defined.

Lemma reachable_ends_bounded s i :
  reachable s → i ∈ allItems s → 0 ≤ start i ∧ 0 < duration i ∧ itemEnd i ≤ totalDuration s.
Proof.
  intros [->|Hs] Hi; [by apply elem_of_nil in Hi|].
  pose proof (mounted_clips_shape s Hs) as Hc.
  pose proof (mounted_textOverlays_shape s Hs) as Ho.
  rewrite Forall_forall in Hc. rewrite Forall_forall in Ho.
  rewrite (mounted_totalDuration_frontier s Hs).
  split; [|split; [|by apply frontier_upper]].
  - unfold allItems, merged in Hi. apply elem_of_app in Hi as [Hi|Hi];
      apply list_elem_of_fmap in Hi as (x & -> & Hx); simpl.
    + by destruct (Hc _ Hx).
    + by destruct (Ho _ Hx).
  - unfold allItems, merged in Hi. apply elem_of_app in Hi as [Hi|Hi];
      apply list_elem_of_fmap in Hi as (x & -> & Hx); simpl.
    + destruct (Hc _ Hx) as (_ & -> & _). lia.
    + destruct (Ho _ Hx) as (_ & -> & _). lia.
Qed.

(** Every sequence of the composition lies inside the duration handed to the
    player: it starts at frame 0 or later, lasts at least one frame and ends
    no later than [Math.max(1, totalDuration)]. *)
Theorem composition_within_player :
  ∀ (s : EditorState) (q : Sequence),
    reachable s → q ∈ Composition s →
    0 ≤ from q ∧ 0 < durationInFrames q
    ∧ from q + durationInFrames q ≤ playerDurationInFrames (totalDuration s).
Proof.
  intros s q Hs Hq. unfold Composition in Hq.
  apply list_elem_of_fmap in Hq as (i & -> & Hi).
  rewrite sortedItems_perm in Hi.
  destruct (reachable_ends_bounded s i Hs Hi) as (H0 & Hd & Hend).
  simpl. unfold playerDurationInFrames, itemEnd in *. lia.
Qed.

Lemma composition_within_player_witness :
  0 ≤ 200 ∧ 0 < 100 ∧ 200 + 100 ≤ playerDurationInFrames
                                     (totalDuration (handle (mount 1024 initialState) OnAddText)).
Proof.
  apply (composition_within_player (handle (mount 1024 initialState) OnAddText)
           (mkSequence "text-2" 200 100 (TextOverlayComponent "BUILD."))).
  - right. apply mounted_event, mounted_first.
  - vm_compute. right. right. left.
Defined.



(** ** Identifiers *)

(** The identifier of the clip at position [i] is [clip-] followed by
    [i + 1]; the same with [text-] for the overlays. *)
Lemma mounted_clip_ids s i c :
  mounted s → clips s !! i = Some c → Clip.id c = "clip-" +:+ pretty (i + 1)%nat.
Proof.
  intros Hs. revert i c. induction Hs as [w|s e Hs IH]; intros i c Hi.
  - destruct i as [|i]; [|done]. by injection Hi as <-.
  - destruct e as [| |p|p|w|t|]; simpl in Hi; try by apply IH.
    + apply lookup_snoc_Some in Hi as [[_ Hi]|[-> <-]]; [by apply IH|done].
    + destruct p; by apply IH.
    + destruct p as [[f|]|]; by apply IH.
Qed.

Lemma mounted_text_ids s i o :
  mounted s → textOverlays s !! i = Some o →
  TextOverlay.id o = "text-" +:+ pretty (i + 1)%nat.
Proof.
  intros Hs. revert i o. induction Hs as [w|s e Hs IH]; intros i o Hi.
  - destruct i as [|i]; [|done]. by injection Hi as <-.
  - destruct e as [| |p|p|w|t|]; simpl in Hi; try by apply IH.
    + apply lookup_snoc_Some in Hi as [[_ Hi]|[-> <-]]; [by apply IH|done].
    + destruct p; by apply IH.
    + destruct p as [[f|]|]; by apply IH.
Qed.

Lemma mounted_ids_NoDup s : mounted s → NoDup (id <$> allItems s).
Proof.
  intros Hs. unfold allItems, merged. rewrite fmap_app, <-!list_fmap_compose.
  apply NoDup_app. split; [|split].
  - apply NoDup_alt. intros i j x Hi Hj.
    apply list_lookup_fmap_Some in Hi as (c1 & -> & Hc1).
    apply list_lookup_fmap_Some in Hj as (c2 & Heq & Hc2). simpl in Heq.
    rewrite (mounted_clip_ids s i c1 Hs Hc1), (mounted_clip_ids s j c2 Hs Hc2) in Heq.
    simpl in Heq. simplify_eq. lia.
  - intros x Hx Hx'.
    apply list_elem_of_fmap in Hx as (c & -> & Hc).
    apply list_elem_of_fmap in Hx' as (o & Heq & Ho). simpl in Heq.
    apply list_elem_of_lookup in Hc as [i Hc]. apply list_elem_of_lookup in Ho as [j Ho].
    rewrite (mounted_clip_ids s i c Hs Hc), (mounted_text_ids s j o Hs Ho) in Heq.
    simpl in Heq. discriminate.
  - apply NoDup_alt. intros i j x Hi Hj.
    apply list_lookup_fmap_Some in Hi as (o1 & -> & Ho1).
    apply list_lookup_fmap_Some in Hj as (o2 & Heq & Ho2). simpl in Heq.
    rewrite (mounted_text_ids s i o1 Hs Ho1), (mounted_text_ids s j o2 Hs Ho2) in Heq.
    simpl in Heq. simplify_eq. lia.
Qed.

Lemma Composition_keys s : key <$> Composition s ≡ₚ id <$> allItems s.
Proof.
  unfold Composition. rewrite <-list_fmap_compose.
  change (key ∘ renderItem) with id. by rewrite sortedItems_perm.
Qed.

(** In every state the component is rendered with, the identifiers of the
    items are pairwise different across both collections, so the [key]s of
    the sequences of the composition are pairwise different; the clip at
    position [i] of its array is named [clip-(i+1)] and the overlay at
    position [i] is named [text-(i+1)]. *)
Theorem reachable_ids_unique :
  ∀ s : EditorState, reachable s →
    NoDup (id <$> allItems s)
    ∧ NoDup (key <$> Composition s)
    ∧ (∀ i c, clips s !! i = Some c → Clip.id c = "clip-" +:+ pretty (i + 1)%nat)
    ∧ (∀ i o, textOverlays s !! i = Some o →
              TextOverlay.id o = "text-" +:+ pretty (i + 1)%nat).
Proof.
  intros s [->|Hs].
  - repeat split; try done; constructor.
  - split; [by apply mounted_ids_NoDup|]. split; [|split].
    + rewrite Composition_keys. by apply mounted_ids_NoDup.
    + intros i c. by apply mounted_clip_ids.
    + intros i o. by apply mounted_text_ids.
Qed.

Lemma reachable_ids_unique_witness :
  NoDup (key <$> Composition (handle (handle (mount 1024 initialState) OnAddClip) OnAddText))
  ∧ Clip.id (newClip (mount 1024 initialState)) = "clip-2".
Proof.
  pose proof (reachable_ids_unique
                (handle (handle (mount 1024 initialState) OnAddClip) OnAddText))
    as (_ & Hkeys & Hclips & _).
  { right. apply mounted_event, mounted_event, mounted_first. }
  split; [exact Hkeys|].
  apply (Hclips 1%nat (newClip (mount 1024 initialState))). reflexivity.
Defined.

(** ** Overlap in the sessions of the mounted component *)

Lemma StronglySorted_weaken {A} (R1 R2 : relation A) (l : list A) :
  (∀ x y, R1 x y → R2 x y) → StronglySorted R1 l → StronglySorted R2 l.
Proof.
  intros HR. induction 1 as [|x l Hl IH Hx]; constructor; [done|].
  eapply Forall_impl; [apply Hx|]. apply HR.
Qed.

Lemma sorted_perm_pairwise {A} (R : relation A) (l l' : list A) i j a b :
  StronglySorted R l → l ≡ₚ l' → i ≠ j →
  l' !! i = Some a → l' !! j = Some b → R a b ∨ R b a.
Proof.
  intros Hl Hp Hij Hi Hj.
  symmetry in Hp. apply Permutation_inj in Hp as (_ & f & Hf & Hlook).
  rewrite Hlook in Hi, Hj.
  assert (f i ≠ f j) as Hne by (intros Heq; by apply Hf in Heq).
  destruct (decide (f i < f j)%nat) as [Hlt|Hge].
  - left. by apply (StronglySorted_lookup_lt R l (f i) (f j)).
  - right. apply (StronglySorted_lookup_lt R l (f j) (f i)); [done|lia|done..].
Qed.

(** [a] precedes [b], or they are the two seeded items. *)
Lemma seeded_journal_sorted l :
  StronglySorted
    (fun a b => precedes a b
                ∨ (a = ClipItem initialClip ∧ b = TextItem initialTextOverlay))
    (seedItems ++ journal (seedEffect initialState) l).
Proof.
  pose proof (journal_after (seedEffect initialState) l) as Hafter.
  assert (frontier (seedEffect initialState) = 200) as Hf by done.
  rewrite Hf in Hafter. simpl. constructor; [constructor|].
  - eapply StronglySorted_weaken; [|apply journal_sorted]. intros x y Hxy. by left.
  - eapply Forall_impl; [apply Hafter|]. intros x [Hx _]. left.
    unfold precedes. change (itemEnd (TextItem initialTextOverlay)) with 150. lia.
  - constructor; [by right|].
    eapply Forall_impl; [apply Hafter|]. intros x [Hx _]. left.
    unfold precedes. change (itemEnd (ClipItem initialClip)) with 200. lia.
Qed.

Lemma mounted_allItems_perm s :
  mounted s → ∃ l, allItems s ≡ₚ seedItems ++ journal (seedEffect initialState) l.
Proof.
  intros Hs. destruct (mounted_from_seed s Hs) as [l Hl]. exists l.
  rewrite (sameItems_allItems _ _ Hl). apply (allItems_appendAll (seedEffect initialState) l).
Qed.

Lemma mounted_seed_positions s :
  mounted s →
  allItems s !! 0%nat = Some (ClipItem initialClip)
  ∧ allItems s !! length (clips s) = Some (TextItem initialTextOverlay).
Proof.
  intros Hs. destruct (mounted_from_seed s Hs) as [l [Hc Ho]].
  pose proof (clips_appendAll (seedEffect initialState) l) as Hcs.
  pose proof (textOverlays_appendAll (seedEffect initialState) l) as Hos.
  rewrite <-Hc in Hcs. rewrite <-Ho in Hos. simpl in Hcs, Hos.
  unfold allItems, merged. rewrite Hos. split.
  - by rewrite Hcs.
  - rewrite <-(length_fmap ClipItem (clips s)). by apply list_lookup_middle.
Qed.

(** The overlay installed on mount lies inside the clip installed on mount,
    and the two stay in the collections for the whole session; they are the
    only two items that ever share a frame. *)
Theorem only_seeded_pair_overlaps :
  ∀ s : EditorState, mounted s →
    (∃ i j, i ≠ j
            ∧ allItems s !! i = Some (ClipItem initialClip)
            ∧ allItems s !! j = Some (TextItem initialTextOverlay)
            ∧ overlap (ClipItem initialClip) (TextItem initialTextOverlay))
    ∧ (∀ i j a b, i ≠ j →
         allItems s !! i = Some a → allItems s !! j = Some b → overlap a b →
         (a = ClipItem initialClip ∧ b = TextItem initialTextOverlay)
         ∨ (a = TextItem initialTextOverlay ∧ b = ClipItem initialClip)).
Proof.
  intros s Hs. split.
  - destruct (mounted_seed_positions s Hs) as [H0 Hn].
    exists 0%nat, (length (clips s)). repeat split; [|done..|].
    + intros Heq. rewrite <-Heq in Hn. congruence.
    + exists 50. by vm_compute.
  - intros i j a b Hij Hi Hj Hov.
    destruct (mounted_allItems_perm s Hs) as [l Hp]. symmetry in Hp.
    destruct (sorted_perm_pairwise _ _ _ i j a b (seeded_journal_sorted l) Hp Hij Hi Hj)
      as [[Hpre|Hseed]|[Hpre|Hseed]].
    + by destruct (precedes_not_overlap a b Hpre).
    + by left.
    + by destruct (precedes_not_overlap b a Hpre).
    + right. by destruct Hseed.
Qed.

Lemma only_seeded_pair_overlaps_witness :
  (∃ i j, i ≠ j
          ∧ allItems (mount 1024 initialState) !! i = Some (ClipItem initialClip)
          ∧ allItems (mount 1024 initialState) !! j = Some (TextItem initialTextOverlay)
          ∧ overlap (ClipItem initialClip) (TextItem initialTextOverlay))
  ∧ ((ClipItem initialClip = ClipItem initialClip
      ∧ TextItem initialTextOverlay = TextItem initialTextOverlay)
     ∨ (ClipItem initialClip = TextItem initialTextOverlay
        ∧ TextItem initialTextOverlay = ClipItem initialClip)).
Proof.
  pose proof (only_seeded_pair_overlaps (mount 1024 initialState) (mounted_first 1024))
    as [Hpair Honly].
  split; [exact Hpair|].
  apply (Honly 0%nat 1%nat); [lia|reflexivity|reflexivity|].
  exists 50. vm_compute. repeat split; discriminate.
Defined.

(** ** Sessions: what each kind of event reaches *)

Lemma appendAll_snoc s l a : appendAll s (l ++ [a]) = append (appendAll s l) a.
Proof. apply foldl_snoc. Qed.

(** The two collections of a session depend on the add-clip and add-text
    clicks only, in their order: playing, pausing, the ticks of the frame
    sampler, resizes, tab changes and the render button never touch them. *)
Theorem session_items_from_appends :
  ∀ (s : EditorState) (evs : list Event),
    sameItems (run s evs) (appendAll s (omap asAppend evs)).
Proof.
  intros s evs. induction evs as [|e evs IH] using rev_ind; [done|].
  rewrite run_snoc, omap_app. simpl.
  destruct (asAppend e) as [a|] eqn:He; simpl.
  - rewrite appendAll_snoc, (handle_asAppend_Some _ _ _ He).
    by apply append_sameItems.
  - rewrite (right_id_L [] (++)).
    destruct (handle_asAppend_None (run s evs) e He) as [[Hc Ho] _].
    destruct IH as [IHc IHo]. split; congruence.
Qed.

(** An append and any other event can be handled in either order. *)
Theorem append_commutes_with_other_events :
  ∀ (s : EditorState) (a : Append) (e : Event),
    asAppend e = None → handle (append s a) e = append (handle s e) a.
Proof.
  intros s a e He.
  destruct a, e as [| |p|p|w|t|]; try done.
  - by destruct p.
  - by destruct p as [[f|]|].
  - by destruct p.
  - by destruct p as [[f|]|].
Qed.

Lemma append_commutes_with_other_events_witness :
  handle (append (mount 1024 initialState) AppendMediaClip) (OnInterval (Some (Some 42)))
  = append (handle (mount 1024 initialState) (OnInterval (Some (Some 42)))) AppendMediaClip.
Proof. apply append_commutes_with_other_events. reflexivity. Defined.

Lemma toggled_cons e evs :
  toggled (e :: evs)
  = xorb (match e with OnPlayPause true => true | _ => false end) (toggled evs).
Proof. done. Qed.

Lemma isPlaying_handle s e :
  isPlaying (handle s e)
  = xorb (isPlaying s) (match e with OnPlayPause true => true | _ => false end).
Proof.
  destruct e as [| |p|p|w|t|]; simpl; try by rewrite xorb_false_r.
  - destruct p; simpl; [by destruct (isPlaying s)|by rewrite xorb_false_r].
  - destruct p as [[f|]|]; simpl; by rewrite xorb_false_r.
Qed.

(** The playing flag of a session flips once for every click on play/pause
    made while the player is attached, and for nothing else; a click made
    while the player is not attached is lost. *)
Theorem session_isPlaying :
  ∀ (s : EditorState) (evs : list Event),
    isPlaying (run s evs) = xorb (isPlaying s) (toggled evs).
Proof.
  intros s evs. revert s. induction evs as [|e evs IH]; intros s.
  - simpl. by rewrite xorb_false_r.
  - change (run s (e :: evs)) with (run (handle s e) evs).
    rewrite IH, isPlaying_handle, toggled_cons. by rewrite xorb_assoc.
Qed.

Lemma currentFrame_handle s e :
  currentFrame (handle s e)
  = match e with OnInterval (Some (Some frame)) => frame | _ => currentFrame s end.
Proof.
  destruct e as [| |p|p|w|t|]; simpl; try done.
  - by destruct p.
  - by destruct p as [[f|]|].
Qed.

(** The current frame of a session is the last frame a tick of the sampler
    read from an attached player that did not answer [null]; ticks without a
    player or with a [null] frame, and all other events, leave it as it
    was. *)
Theorem session_currentFrame :
  ∀ (s : EditorState) (evs : list Event),
    currentFrame (run s evs) = default (currentFrame s) (lastSample evs).
Proof.
  intros s evs. induction evs as [|e evs IH] using rev_ind; [done|].
  rewrite run_snoc, currentFrame_handle, IH. unfold lastSample.
  rewrite foldl_snoc. by destruct e as [| |p|[[f|]|]|w|t|].
Qed.

(** The mobile gate of a session follows the last width seen: the width at
    mount, or that of the last resize; it is on exactly when that width is at
    most 768. *)
Theorem session_isMobile :
  ∀ (innerWidth : Z) (evs : list Event),
    isMobile (run (mount innerWidth initialState) evs)
    = bool_decide (default innerWidth (lastWidth evs) ≤ 768).
Proof.
  intros w evs. induction evs as [|e evs IH] using rev_ind.
  - simpl. unfold lastWidth. simpl. by destruct (Z.leb_spec w 768);
      [rewrite bool_decide_eq_true_2|rewrite bool_decide_eq_false_2 by lia].
  - rewrite run_snoc. unfold lastWidth in *. rewrite foldl_snoc.
    destruct e as [| |p|p|w'|t|]; simpl; try done.
    + by destruct p.
    + by destruct p as [[f|]|].
    + by destruct (Z.leb_spec w' 768);
        [rewrite bool_decide_eq_true_2|rewrite bool_decide_eq_false_2 by lia].
Qed.

(** ** The zoom of the timeline *)

Lemma quarter_levels k :
  2 ≤ k ≤ 12 →
  zoomIn (quarters k) = quarters (Z.min 12 (k + 1))
  ∧ zoomOut (quarters k) = quarters (Z.max 2 (k - 1))
  ∧ zoomPercent (quarters k) = 25 * k
  ∧ (Q2Qc (1 # 2) ≤ quarters k)%Qc ∧ (quarters k ≤ Q2Qc 3)%Qc.
Proof.
  intros Hk.
  assert (k = 2 ∨ k = 3 ∨ k = 4 ∨ k = 5 ∨ k = 6 ∨ k = 7 ∨ k = 8 ∨ k = 9
          ∨ k = 10 ∨ k = 11 ∨ k = 12) as Hcases by lia.
  repeat (destruct Hcases as [->|Hcases]); [..|subst k];
    (split; [by apply Qc_is_canon; vm_compute|]);
    (split; [by apply Qc_is_canon; vm_compute|]);
    (split; [by vm_compute|]);
    split; by vm_compute.
Qed.

(** Whatever the sequence of clicks on the two zoom buttons, the zoom is a
    multiple of 0.25 between 0.5 and 3 and the label shows it as a whole
    percentage between 50 and 300; a click on [+] adds 0.25 unless the zoom
    is 3, a click on [-] takes 0.25 off unless the zoom is 0.5. *)
Theorem zoom_stays_on_quarter_levels :
  (∀ clicks : list ZoomClick,
      ∃ k : Z, 2 ≤ k ≤ 12
        ∧ foldl zoomStep initialZoom clicks = quarters k
        ∧ zoomPercent (foldl zoomStep initialZoom clicks) = 25 * k
        ∧ (Q2Qc (1 # 2) ≤ foldl zoomStep initialZoom clicks)%Qc
        ∧ (foldl zoomStep initialZoom clicks ≤ Q2Qc 3)%Qc)
  ∧ (∀ k : Z, 2 ≤ k ≤ 12 →
      zoomIn (quarters k) = quarters (Z.min 12 (k + 1))
      ∧ zoomOut (quarters k) = quarters (Z.max 2 (k - 1))).
Proof.
  split.
  - intros clicks. induction clicks as [|c clicks IH] using rev_ind.
    + exists 4. split; [lia|]. split; [by apply Qc_is_canon; vm_compute|].
      split; [by vm_compute|]. split; by vm_compute.
    + destruct IH as (k & Hk & Hz & _). rewrite foldl_snoc, Hz.
      destruct (quarter_levels k Hk) as (Hin & Hout & _).
      destruct c; simpl.
      * exists (Z.max 2 (k - 1)). rewrite Hout. split; [lia|]. split; [done|].
        by destruct (quarter_levels (Z.max 2 (k - 1)) ltac:(lia)) as (_ & _ & ? & ? & ?).
      * exists (Z.min 12 (k + 1)). rewrite Hin. split; [lia|]. split; [done|].
        by destruct (quarter_levels (Z.min 12 (k + 1)) ltac:(lia)) as (_ & _ & ? & ? & ?).
  - intros k Hk. by destruct (quarter_levels k Hk) as (? & ? & _).
Qed.

Lemma zoom_stays_on_quarter_levels_witness :
  zoomIn (quarters 12) = quarters (Z.min 12 (12 + 1))
  ∧ zoomOut (quarters 12) = quarters (Z.max 2 (12 - 1)).
Proof. apply (proj2 zoom_stays_on_quarter_levels). lia. Defined.

(** ** The single-file version: seeding and overlap *)

Lemma SingleFile_anchor_end s :
  latestStart (SingleFile.lastItem s) + latestDuration (SingleFile.lastItem s)
  = maxEndFrom 0 (SingleFile.allItems s).
Proof. unfold SingleFile.lastItem. apply (latestEnd_foldl Origin). Qed.

Lemma SingleFile_allItems_addClip s :
  SingleFile.allItems (SingleFile.addClip s)
  ≡ₚ SingleFile.allItems s ++ [ClipItem (SingleFile.newClip s)].
Proof.
  unfold SingleFile.allItems, merged. simpl.
  rewrite fmap_app. simpl. rewrite <-!(assoc_L (++)).
  apply Permutation_app_head, Permutation_app_comm.
Qed.

Lemma SingleFile_allItems_addTextOverlay s :
  SingleFile.allItems (SingleFile.addTextOverlay s)
  ≡ₚ SingleFile.allItems s ++ [TextItem (SingleFile.newOverlay s)].
Proof.
  unfold SingleFile.allItems, merged. simpl.
  rewrite fmap_app. simpl. by rewrite (assoc_L (++)).
Qed.

Lemma StronglySorted_precedes_snoc chron l x :
  chron ≡ₚ l → start x = maxEndFrom 0 l →
  StronglySorted precedes chron → StronglySorted precedes (chron ++ [x]).
Proof.
  intros Hp Hx Hs. apply StronglySorted_app. split; [|split; [done|by repeat constructor]].
  intros x1 x2 H1 H2. apply list_elem_of_singleton in H2 as ->.
  unfold precedes. rewrite Hx. apply maxEndFrom_upper. by rewrite <-Hp.
Qed.

Lemma SingleFile_mounted_inv s :
  SingleFile.mounted s →
  ∃ chron, chron ≡ₚ SingleFile.allItems s ∧ StronglySorted precedes chron.
Proof.
  induction 1 as [w|s e Hs (chron & Hp & Hsorted)].
  - exists [ClipItem SingleFile.initialClip; TextItem SingleFile.initialTextOverlay].
    split; [done|]. repeat constructor. by vm_compute.
  - destruct e as [| |p|w]; simpl.
    + exists (chron ++ [ClipItem (SingleFile.newClip s)]). split.
      * by rewrite SingleFile_allItems_addClip, Hp.
      * apply (StronglySorted_precedes_snoc _ (SingleFile.allItems s)); [done| |done].
        apply SingleFile_anchor_end.
    + exists (chron ++ [TextItem (SingleFile.newOverlay s)]). split.
      * by rewrite SingleFile_allItems_addTextOverlay, Hp.
      * apply (StronglySorted_precedes_snoc _ (SingleFile.allItems s)); [done| |done].
        apply SingleFile_anchor_end.
    + exists chron. by destruct p as [[f|]|].
    + by exists chron.
Qed.

(** In the single-file version the seeding effect does to a timeline without
    items exactly what an add-clip followed by an add-text does. *)
Theorem singlefile_seed_is_two_appends :
  ∀ s : SingleFile.EditorState,
    SingleFile.clips s = [] → SingleFile.textOverlays s = [] →
    SingleFile.seedEffect s = SingleFile.addTextOverlay (SingleFile.addClip s).
Proof. intros [cs os t f m] Hc Ho. simpl in *. by subst. Qed.

Lemma singlefile_seed_is_two_appends_witness :
  SingleFile.seedEffect SingleFile.initialState
  = SingleFile.addTextOverlay (SingleFile.addClip SingleFile.initialState).
Proof. apply singlefile_seed_is_two_appends; reflexivity. Defined.

(** In the single-file version no two items ever share a frame, in any state
    the component is rendered with. *)
Theorem singlefile_never_overlaps :
  ∀ s : SingleFile.EditorState,
    SingleFile.reachable s → NoOverlap (SingleFile.allItems s).
Proof.
  intros s [->|Hs].
  - intros i j a b _ Hi. by destruct i.
  - destruct (SingleFile_mounted_inv s Hs) as (chron & Hp & Hsorted).
    apply (NoOverlap_perm chron); [done|]. by apply NoOverlap_sorted.
Qed.

Lemma singlefile_never_overlaps_witness :
  NoOverlap (SingleFile.allItems
               (SingleFile.handle (SingleFile.mount 1024 SingleFile.initialState)
                                  SingleFile.OnAddText)).
Proof.
  apply singlefile_never_overlaps. right.
  apply SingleFile.mounted_event, SingleFile.mounted_first.
Defined.
